(** * md-split: splitting markdown into length-bounded chunks

    A shallow embedding of [mdsplit.go] (package [mdsplit]) and the
    properties of its two entry points, [MarkdownSplit] and [SimpleSplit].

    Conventions of the embedding.
    - A Go [string] is a byte string: [String.string], one [ascii] per byte.
      [len] is the byte length as a Go [int].
    - A Go [int] is a [Z].  Every integer the program computes is a length of
      a string it holds, a sum of such lengths, or an index below such a
      length, so no operation leaves the 64-bit range and no wrap-around is
      written out.
    - A Go slice of strings is a [list]; the [nil] slice is the empty list.
    - The markdown parser (blackfriday) and the UUID generator are external:
      the parser is a parameter [parse], the generated UUID text a parameter
      [uuid]. *)

From Stdlib Require Import ZArith List String Ascii Bool Lia.
Import ListNotations.

Open Scope string_scope.
Open Scope Z_scope.

Set Warnings "-register-all".

(** ** Go strings *)

Definition len (s : string) : Z := Z.of_nat (String.length s).

Fixpoint take (n : nat) (s : string) : string :=
  match n, s with
  | S n', String c s' => String c (take n' s')
  | _, _ => ""
  end.

Fixpoint drop (n : nat) (s : string) : string :=
  match n, s with
  | S n', String _ s' => drop n' s'
  | _, _ => s
  end.

(** [slice s lo hi] is the Go expression [s[lo:hi]].  Go panics unless
    [0 <= lo <= hi <= len s]; every use below is within that range. *)
Definition slice (s : string) (lo hi : Z) : string :=
  take (Z.to_nat (hi - lo)) (drop (Z.to_nat lo) s).

Definition min (a b : Z) : Z := if a <? b then a else b.

(** [int(math.Ceil(float64(a) / float64(b)))] for [0 <= a] and [0 < b].
    The conversions and the division are exact enough for the ceiling to be
    the integer one whenever [a < 2^53], which holds of any string length. *)
Definition ceilDiv (a b : Z) : Z :=
  if a mod b =? 0 then a / b else a / b + 1.

Module strings.

Fixpoint contains (cutset : string) (c : ascii) : bool :=
  match cutset with
  | "" => false
  | String d cutset' => Ascii.eqb c d || contains cutset' c
  end.

Definition HasPrefix (s pre : string) : bool := prefix pre s.

Fixpoint indexFrom (s substr : string) : option nat :=
  if prefix substr s then Some 0%nat
  else match s with
       | "" => None
       | String _ s' => option_map S (indexFrom s' substr)
       end.

(** [strings.Index]: the byte offset of the first occurrence, or [-1]. *)
Definition Index (s substr : string) : Z :=
  match indexFrom s substr with
  | Some i => Z.of_nat i
  | None => -1
  end.

(** [strings.Replace(s, old, new, 1)]: only the first occurrence, the one
    count the program uses. *)
Definition Replace1 (s old new : string) : string :=
  match indexFrom s old with
  | Some i => take i s ++ new ++ drop (i + String.length old) s
  | None => s
  end.

Fixpoint repeat (s : string) (n : nat) : string :=
  match n with
  | O => ""
  | S n' => s ++ repeat s n'
  end.

(** [strings.Repeat]; Go panics on a negative count. *)
Definition Repeat (s : string) (count : Z) : string :=
  repeat s (Z.to_nat count).

(** [strings.TrimLeft] removes every leading character that belongs to
    [cutset]: the second argument is a set of characters, not a prefix.
    The embedding works on bytes, which is what Go does for an ASCII
    cutset. *)
Fixpoint TrimLeft (s cutset : string) : string :=
  match s with
  | "" => ""
  | String c s' => if contains cutset c then TrimLeft s' cutset else s
  end.

(** [strings.TrimRight], likewise on the right. *)
Fixpoint TrimRight (s cutset : string) : string :=
  match s with
  | "" => ""
  | String c s' =>
      match TrimRight s' cutset with
      | "" => if contains cutset c then "" else String c ""
      | t => String c t
      end
  end.

End strings.

Module strconv.

Definition digit (d : Z) : ascii := ascii_of_nat (48 + Z.to_nat d).

Fixpoint digits (fuel : nat) (n : Z) (acc : string) : string :=
  match fuel with
  | O => acc
  | S fuel' =>
      let acc' := String (digit (n mod 10)) acc in
      if n <? 10 then acc' else digits fuel' (n / 10) acc'
  end.

(** [strconv.Itoa], also the verb [%d] of [fmt.Sprintf]. *)
Definition Itoa (n : Z) : string :=
  if n <? 0 then "-" ++ digits (S (Z.to_nat (Z.log2 (- n)))) (- n) ""
  else digits (S (Z.to_nat (Z.log2 n))) n "".

End strconv.

Module fmt.

Inductive arg : Type :=
| Int (n : Z)
| Str (s : string).

(** [fmt.Sprintf] for the verbs [%d] and [%s]. *)
Fixpoint Sprintf (format : string) (args : list arg) : string :=
  match format with
  | "" => ""
  | String c rest =>
      if Ascii.eqb c "%" then
        match rest, args with
        | String v rest', a :: args' =>
            match a with
            | Int n => if Ascii.eqb v "d" then strconv.Itoa n ++ Sprintf rest' args'
                       else String c (Sprintf rest args)
            | Str s => if Ascii.eqb v "s" then s ++ Sprintf rest' args'
                       else String c (Sprintf rest args)
            end
        | _, _ => String c (Sprintf rest args)
        end
      else String c (Sprintf rest args)
  end.

End fmt.

(** ** The fallback splitter *)

Fixpoint SimpleSplit_loop (text sep : string) (maxSize numChunks : Z)
    (n : nat) (i : Z) : list string :=
  match n with
  | O => []
  | S n' =>
      let upTo := min (len text) ((i + 1) * maxSize) in
      let portion := slice text (i * maxSize) upTo in
      let portion := if i <? numChunks - 1 then portion ++ sep else portion in
      portion :: SimpleSplit_loop text sep maxSize numChunks n' (i + 1)
  end.

(** [SimpleSplit]: the loop [for i := 0; i < numChunks; i++] runs
    [numChunks] times. *)
Definition SimpleSplit (text : string) (max : Z) (sep : string) : list string :=
  if len text <=? max then [text]
  else if max <=? len sep then []
  else
    let maxSize := max - len sep in
    let numChunks := ceilDiv (len text) maxSize in
    SimpleSplit_loop text sep maxSize numChunks (Z.to_nat numChunks) 0.

(** ** The parsed document (blackfriday)

    The parser is external; what the program reads of its tree is below.
    [Parent] pointers are rendered by handing every visited node the chain of
    its ancestors, nearest first. *)

Module blackfriday.

Inductive NodeType : Type :=
| Document | BlockQuote | List | Item | Paragraph | Heading
| HorizontalRule | Emph | Strong | Del | Link | Image | Text | HTMLBlock
| CodeBlock | Softbreak | Hardbreak | Code | HTMLSpan | Table | TableCell
| TableHead | TableBody | TableRow.

Definition NodeType_eqb (a b : NodeType) : bool :=
  match a, b with
  | Document, Document | BlockQuote, BlockQuote | List, List | Item, Item
  | Paragraph, Paragraph | Heading, Heading
  | HorizontalRule, HorizontalRule | Emph, Emph | Strong, Strong
  | Del, Del | Link, Link | Image, Image | Text, Text
  | HTMLBlock, HTMLBlock | CodeBlock, CodeBlock | Softbreak, Softbreak
  | Hardbreak, Hardbreak | Code, Code | HTMLSpan, HTMLSpan | Table, Table
  | TableCell, TableCell | TableHead, TableHead | TableBody, TableBody
  | TableRow, TableRow => true
  | _, _ => false
  end.

(** [Literal] is [None] for Go's [nil]; [Level] is [HeadingData.Level];
    [Destination] and [Title] are the two fields of [LinkData] the program
    reads; [children] is the sibling chain from [FirstChild]. *)
Inductive Node : Type := mkNode {
  Typ : NodeType;
  Literal : option string;
  Level : Z;
  Destination : string;
  Title : string;
  children : list Node
}.

Definition isContainer (t : NodeType) : bool :=
  match t with
  | Document | BlockQuote | List | Item | Paragraph | Heading | Emph
  | Strong | Del | Link | Image | Table | TableHead | TableBody | TableRow
  | TableCell => true
  | _ => false
  end.

(** The visitor of this program returns [GoToNext] or [Terminate] only. *)
Inductive WalkStatus : Type := GoToNext | Terminate.

Record visit : Type := mkVisit {
  node : Node;
  entering : bool;
  parents : list Node
}.

(** The calls [Node.Walk] makes while the visitor answers [GoToNext]: every
    node once on entering, in document order, and a container once more on
    leaving, after its children.  Children of a node that is not a
    container are not walked. *)
Fixpoint walkEvents (ps : list Node) (n : Node) : list visit :=
  match n with
  | mkNode t _ _ _ _ cs =>
      mkVisit n true ps ::
      (if isContainer t
       then (flat_map (walkEvents (n :: ps)) cs ++ [mkVisit n false ps])%list
       else [])
  end.

Fixpoint runVisitor {S : Type} (visitor : S -> visit -> S * WalkStatus)
    (evs : list visit) (st : S) : S :=
  match evs with
  | [] => st
  | ev :: evs' =>
      match visitor st ev with
      | (st', GoToNext) => runVisitor visitor evs' st'
      | (st', Terminate) => st'
      end
  end.

Definition Walk {S : Type} (visitor : S -> visit -> S * WalkStatus)
    (root : Node) (st : S) : S :=
  runVisitor visitor (walkEvents [] root) st.

End blackfriday.

Import blackfriday.

(** ** The markdown-aware splitter *)

Definition MaxGithubCommentSize : Z := 65536.

Record wrapper : Type := mkWrapper { begin : string; end_ : string }.

Record chunk : Type := mkChunk { content : string; wrappers : list wrapper }.

Definition LF : string := String "010"%char "".
Definition quote : string := String "034"%char "".

Definition titleSuffixFmt : string := " (%d/%s)" ++ LF ++ LF.

Definition isHTMLOpeningTag (tag : string) : bool :=
  if strings.HasPrefix tag "</" then false else true.

Definition getHTMLClosingTag (open : string) : string :=
  strings.Replace1 open "<" "</".

(** The loop [for contents != ""] of [buildChunks].  With [1 <= chunkLen]
    every round consumes a byte, so [String.length contents] rounds of fuel
    are never used up (lemma [buildChunks_loop_fuel]); the one caller passes
    [chunkLen = max - extraLen] after checking [extraLen < max]. *)
Fixpoint buildChunks_loop (fuel : nat) (contents : string) (chunkLen : Z)
    (ws : list wrapper) : list chunk :=
  match fuel with
  | O => []
  | S fuel' =>
      if (contents =? "")%string then []
      else if len contents <=? chunkLen then [mkChunk contents ws]
      else mkChunk (slice contents 0 chunkLen) ws ::
           buildChunks_loop fuel' (slice contents chunkLen (len contents))
             chunkLen ws
  end.

Definition buildChunks (contents : string) (chunkLen : Z)
    (ws : list wrapper) : list chunk :=
  buildChunks_loop (String.length contents) contents chunkLen ws.

(** The string the first two inner loops of [chunksAsStr] build for one
    piece: every [begin] is put in front, every [end] behind. *)
Definition renderChunk (cm : chunk) : string :=
  let cmStr := fold_left (fun cmStr w => begin w ++ cmStr) (wrappers cm) "" in
  let cmStr := cmStr ++ content cm in
  fold_left (fun cmStr w => cmStr ++ end_ w) (wrappers cm) cmStr.

(** One round of the loop over [chunks]; the state is [result] and
    [curChunk]. *)
Definition chunksAsStr_step (max : Z) (baseTitle titleSuffixFmt titleTotalID : string)
    (st : list string * Z) (cm : chunk) : list string * Z :=
  let '(result, curChunk) := st in
  let cmStr := renderChunk cm in
  if (0 <? Z.of_nat (List.length result)) &&
     (len (last result "") + len cmStr <=? max)
  then ((removelast result ++ [(last result "" ++ cmStr)%string])%list, curChunk)
  else
    let cmStr :=
      if negb (baseTitle =? "")%string
      then baseTitle ++
           fmt.Sprintf titleSuffixFmt [fmt.Int curChunk; fmt.Str titleTotalID] ++
           cmStr
      else cmStr in
    ((result ++ [cmStr])%list, curChunk + 1).

Definition chunksAsStr_loop (chunks : list chunk) (max : Z)
    (baseTitle titleSuffixFmt titleTotalID : string) : list string * Z :=
  fold_left (chunksAsStr_step max baseTitle titleSuffixFmt titleTotalID)
    chunks ([], 1).

(** [uuid] is the text of [uuid.New().String()]. *)
Definition chunksAsStr (uuid : string) (chunks : list chunk) (max : Z)
    (baseTitle titleSuffixFmt : string) : list string :=
  let titleTotalID := fmt.Sprintf "<%s>" [fmt.Str uuid] in
  let result :=
    fst (chunksAsStr_loop chunks max baseTitle titleSuffixFmt titleTotalID) in
  let totalStr := strconv.Itoa (Z.of_nat (List.length result)) in
  map (fun r => strings.Replace1 r titleTotalID totalStr) result.

(** The variables the visitor closure of [MarkdownSplit] captures. *)
Record walkState : Type := mkState {
  chunks : list chunk;
  baseTitle : string;
  titleLen : Z;
  canSplit : bool;
  htmlWrappers : list wrapper
}.

Definition initState : walkState := mkState [] "" 0 true [].

(** The loop [for parent != nil] over the ancestors.  [inl] is the early
    [return blackfriday.GoToNext] of the first heading, with the state it
    leaves; [inr] the wrappers collected when the loop runs to the root. *)
Fixpoint parentLoop (st : walkState) (contents : string) (ps : list Node)
    (ws : list wrapper) : walkState + list wrapper :=
  match ps with
  | [] => inr ws
  | parent :: ps' =>
      match Typ parent with
      | Del => parentLoop st contents ps' (ws ++ [mkWrapper "~~" "~~"])%list
      | Emph => parentLoop st contents ps' (ws ++ [mkWrapper "_" "_"])%list
      | Strong => parentLoop st contents ps' (ws ++ [mkWrapper "**" "**"])%list
      | Heading =>
          let heading := strings.Repeat "#" (Level parent) in
          if (baseTitle st =? "")%string && (Z.of_nat (List.length (chunks st)) =? 0)
          then
            let baseTitle' :=
              fmt.Sprintf "%s %s" [fmt.Str heading; fmt.Str contents] in
            inl (mkState (chunks st) baseTitle'
                   (len baseTitle' + len titleSuffixFmt + 10)
                   (canSplit st) (htmlWrappers st))
          else
            parentLoop st contents ps'
              (ws ++ [mkWrapper (heading ++ " ")%string (LF ++ LF)%string])%list
      | Link =>
          let sb := "](" in
          let linkDest := Destination parent in
          let linkTitle := Title parent in
          let sb := if negb (linkDest =? "")%string then sb ++ linkDest else sb in
          let sb :=
            if negb (linkTitle =? "")%string
            then sb ++ fmt.Sprintf (" " ++ quote ++ "%s" ++ quote) [fmt.Str linkTitle]
            else sb in
          let sb := sb ++ ")" in
          parentLoop st contents ps' (ws ++ [mkWrapper "[" sb])%list
      | _ => parentLoop st contents ps' ws
      end
  end.

(** The [switch node.Type] after the ancestor loop: the contents, the
    wrappers and the stack of open HTML tags it leaves. *)
Definition nodeSwitch (t : NodeType) (contents : string) (ws html : list wrapper)
    : string * list wrapper * list wrapper :=
  match t with
  | Code =>
      let lineBreakIdx := strings.Index contents LF in
      let '(contents, begin) :=
        if negb (lineBreakIdx =? -1)
        then
          let pre := slice contents 0 (lineBreakIdx + 1) in
          (strings.TrimLeft contents pre, "```" ++ pre)
        else (contents, "```" ++ LF) in
      let contents := strings.TrimRight contents LF in
      (contents, (ws ++ [mkWrapper begin (LF ++ "```")%string])%list, html)
  | HTMLSpan =>
      if isHTMLOpeningTag contents
      then ("", ws, (html ++ [mkWrapper contents (getHTMLClosingTag contents)])%list)
      else if (0 <? Z.of_nat (List.length html)) &&
              (contents =? end_ (last html (mkWrapper "" "")))%string
      then ("", ws, removelast html)
      else (contents, ws, html)
  | _ => (contents, ws, html)
  end.

Definition wrappersLen (ws : list wrapper) : Z :=
  fold_left (fun wLen w => wLen + (len (begin w) + len (end_ w))) ws 0.

(** The closure passed to [rootNode.Walk]. *)
Definition visitor (max : Z) (sep : string) (st : walkState) (ev : visit)
    : walkState * WalkStatus :=
  let n := node ev in
  if NodeType_eqb (Typ n) List
  then (mkState (chunks st) (baseTitle st) (titleLen st) false (htmlWrappers st),
        Terminate)
  else
    match Literal n with
    | None => (st, GoToNext)
    | Some contents =>
        match parentLoop st contents (parents ev) [] with
        | inl st' => (st', GoToNext)
        | inr ws =>
            let '(contents, ws, html) :=
              nodeSwitch (Typ n) contents ws (htmlWrappers st) in
            let ws := (ws ++ html)%list in
            let wLen := wrappersLen ws in
            let sepLen := len sep in
            let extraLen := wLen + titleLen st + sepLen in
            if extraLen >=? max
            then (mkState (chunks st) (baseTitle st) (titleLen st) false html,
                  Terminate)
            else
              let chunkLen := max - extraLen in
              (mkState (chunks st ++ buildChunks contents chunkLen ws)%list
                 (baseTitle st) (titleLen st) (canSplit st) html,
               GoToNext)
        end
    end.

(** [MarkdownSplit] after [md.Parse]: [rootNode] is the parsed tree. *)
Definition MarkdownSplitNode (uuid : string) (rootNode : Node) (text : string)
    (max : Z) (sep : string) : list string * bool :=
  if len text <=? max then ([text], true)
  else if max <=? len sep then ([], false)
  else
    let st := Walk (visitor max sep) rootNode initState in
    if negb (canSplit st) then (SimpleSplit text max sep, false)
    else (chunksAsStr uuid (chunks st) max (baseTitle st) titleSuffixFmt, true).

Definition MarkdownSplit (parse : string -> Node) (uuid : string)
    (text : string) (max : Z) (sep : string) : list string * bool :=
  MarkdownSplitNode uuid (parse text) text max sep.

Definition SplitGithubComment (parse : string -> Node) (uuid : string)
    (text sep : string) : list string * bool :=
  MarkdownSplit parse uuid text MaxGithubCommentSize sep.

(** ** Trees of the repository's test inputs *)

Definition leaf (t : NodeType) (lit : string) : Node :=
  mkNode t (Some lit) 0 "" "" [].
Definition container (t : NodeType) (cs : list Node) : Node :=
  mkNode t None 0 "" "" cs.
Definition heading (level : Z) (cs : list Node) : Node :=
  mkNode Heading None level "" "" cs.
Definition link (dest title : string) (cs : list Node) : Node :=
  mkNode Link None 0 dest title cs.

Definition uuid0 : string := "123e4567-e89b-12d3-a456-426614174000".

Definition titledText : string :=
  "### Comment with title" ++ LF ++ LF ++ "Includes the title in every split.".
Definition titledDoc : Node :=
  container Document
    [heading 3 [leaf Text "Comment with title"];
     container Paragraph [leaf Text "Includes the title in every split."]].

Definition codeText : string :=
  "```thelang" ++ LF ++ "Splits codeblocks." ++ LF ++ "Properly" ++ LF ++
  "and without breaking syntax highlight```".
Definition codeDoc : Node :=
  container Document
    [container Paragraph
       [leaf Code ("thelang" ++ LF ++ "Splits codeblocks." ++ LF ++ "Properly" ++
                   LF ++ "and without breaking syntax highlight")]].

Definition htmlText : string :=
  "<tag1>Splits content <tag2> nested in html spans <tag3>properly</tag3> and keeping tags.</tag2></tag1>".
Definition htmlDoc : Node :=
  container Document
    [container Paragraph
       [leaf HTMLSpan "<tag1>"; leaf Text "Splits content ";
        leaf HTMLSpan "<tag2>"; leaf Text " nested in html spans ";
        leaf HTMLSpan "<tag3>"; leaf Text "properly"; leaf HTMLSpan "</tag3>";
        leaf Text " and keeping tags."; leaf HTMLSpan "</tag2>";
        leaf HTMLSpan "</tag1>"]].

Definition twoTitlesText : string :=
  "# Main title" ++ LF ++ LF ++ "Some text." ++ LF ++ LF ++ "## Second title" ++
  LF ++ LF ++ "Whatever".
Definition twoTitlesDoc : Node :=
  container Document
    [heading 1 [leaf Text "Main title"];
     container Paragraph [leaf Text "Some text."];
     heading 2 [leaf Text "Second title"];
     container Paragraph [leaf Text "Whatever"]].

Definition linkText : string :=
  "[I'm an inline-style link](https://www.google.com)".
Definition linkDoc : Node :=
  container Document
    [container Paragraph
       [link "https://www.google.com" "" [leaf Text "I'm an inline-style link"]]].

Definition listText : string :=
  "1. First ordered list item" ++ LF ++ "2. Another item" ++ LF.
Definition listDoc : Node :=
  container Document
    [container List
       [container Item [container Paragraph [leaf Text "First ordered list item"]];
        container Item [container Paragraph [leaf Text "Another item"]]]].

(** An HTML closing tag that closes nothing, after a tag that stays open. *)
Definition unmatchedText : string := "<a>unmatched </b> tag".
Definition unmatchedDoc : Node :=
  container Document
    [container Paragraph
       [leaf HTMLSpan "<a>"; leaf Text "unmatched "; leaf HTMLSpan "</b>";
        leaf Text " tag"]].

(** A code span whose code starts with letters of its first line. *)
Definition goText : string :=
  "```go" ++ LF ++ "good code is cut here and there```".
Definition goDoc : Node :=
  container Document
    [container Paragraph
       [leaf Code ("go" ++ LF ++ "good code is cut here and there")]].

(** A document of a short heading and one paragraph of [n] bytes. *)
Definition xs (n : nat) : string := strings.repeat "x" n.

(** ** Definitions used to state the properties *)

Definition join (ps : list string) : string := fold_right append "" ps.

(** [strings.TrimSuffix], used to state that a separator is stripped. *)
Definition TrimSuffix (s suffix : string) : string :=
  let n := (String.length s - String.length suffix)%nat in
  if (drop n s =? suffix)%string then take n s else s.

(** [cut n m s]: [n] consecutive pieces of [s], all but the last of [m]
    bytes, the last one taking the rest. *)
Fixpoint cut (n m : nat) (s : string) : list string :=
  match n with
  | O => []
  | S n' =>
      match n' with
      | O => [s]
      | S _ => take m s :: cut n' m (drop m s)
      end
  end.

Fixpoint addSep (sep : string) (ps : list string) : list string :=
  match ps with
  | [] => []
  | p :: ps' =>
      match ps' with
      | [] => [p]
      | _ :: _ => (p ++ sep) :: addSep sep ps'
      end
  end.

Section NodeInduction.
Variable P : Node -> Prop.
Hypothesis step :
  forall t lit lvl dest ttl cs,
    Forall P cs -> P (mkNode t lit lvl dest ttl cs).

Fixpoint Node_induction (n : Node) : P n :=
  match n with
  | mkNode t lit lvl dest ttl cs =>
      step t lit lvl dest ttl cs
        ((fix children_ok (cs : list Node) : Forall P cs :=
            match cs with
            | [] => Forall_nil P
            | c :: cs' => Forall_cons c (Node_induction c) (children_ok cs')
            end) cs)
  end.
End NodeInduction.

Fixpoint containsList (n : Node) : bool :=
  match n with
  | mkNode t _ _ _ _ cs => NodeType_eqb t List || existsb containsList cs
  end.

(** What the parser's tree builder guarantees: only container nodes have
    children. *)
Fixpoint wellFormed (n : Node) : bool :=
  match n with
  | mkNode t _ _ _ _ cs =>
      (isContainer t || match cs with [] => true | _ => false end) &&
      forallb wellFormed cs
  end.

(** The state in which the walk arrives after the calls [evs], if none of
    them stopped it. *)
Fixpoint reach {S : Type} (visitor : S -> visit -> S * WalkStatus)
    (evs : list visit) (st : S) : option S :=
  match evs with
  | [] => Some st
  | ev :: evs' =>
      match visitor st ev with
      | (st', GoToNext) => reach visitor evs' st'
      | (_, Terminate) => None
      end
  end.

(** The value of [extraLen] when the visitor, called on [ev] in state [st],
    gets to the budget check. *)
Definition extraLenAt (sep : string) (st : walkState) (ev : visit) : option Z :=
  if NodeType_eqb (Typ (node ev)) List then None
  else
    match Literal (node ev) with
    | None => None
    | Some contents =>
        match parentLoop st contents (parents ev) [] with
        | inl _ => None
        | inr ws =>
            let '(_, ws, html) :=
              nodeSwitch (Typ (node ev)) contents ws (htmlWrappers st) in
            Some (wrappersLen (ws ++ html)%list + titleLen st + len sep)
        end
    end.

(** [nest ws s]: [s] inside the wrappers [ws], the first one innermost; each
    [begin] is matched by its [end] on the other side of [s]. *)
Definition nest (ws : list wrapper) (s : string) : string :=
  fold_left (fun s w => begin w ++ s ++ end_ w) ws s.

(** The rendered pieces of one output chunk, one after the other. *)
Definition body (g : list chunk) : string := join (map renderChunk g).

(** The pagination title [chunksAsStr] puts in front of chunk number [k],
    still holding the placeholder for the total. *)
Definition titleOf (baseTitle titleSuffixFmt titleTotalID : string) (k : Z)
    : string :=
  if negb (baseTitle =? "")%string
  then baseTitle ++ fmt.Sprintf titleSuffixFmt [fmt.Int k; fmt.Str titleTotalID]
  else "".

Fixpoint mapFrom {A B : Type} (f : Z -> A -> B) (k : Z) (l : list A) : list B :=
  match l with
  | [] => []
  | x :: l' => f k x :: mapFrom f (k + 1) l'
  end.

Fixpoint allFrom {A : Type} (P : Z -> A -> Prop) (k : Z) (l : list A) : Prop :=
  match l with
  | [] => True
  | x :: l' => P k x /\ allFrom P (k + 1) l'
  end.

(** A piece leaves room for the title and the separator. *)
Definition pieceFits (max : Z) (sep : string) (tl : Z) (c : chunk) : Prop :=
  len (renderChunk c) + tl + len sep <= max.

(** What holds of the visitor's variables all along the walk. *)
Definition walkInv (max : Z) (sep : string) (st : walkState) : Prop :=
  (baseTitle st = "" /\ titleLen st = 0 \/
   baseTitle st <> "" /\ titleLen st = len (baseTitle st) + 20) /\
  Forall (pieceFits max sep (titleLen st)) (chunks st).

(** [sub] occurs in [s]. *)
Definition occursIn (sub s : string) : Prop :=
  exists a b, s = a ++ sub ++ b.

(** An output chunk, before the total is filled in, is within [max] or
    holds a single piece. *)
Definition groupFits (max : Z) (T : Z -> string) (k : Z) (g : list chunk) : Prop :=
  len (T k ++ body g) <= max \/ exists c, g = [c].


Fixpoint allChars (P : ascii -> bool) (s : string) : bool :=
  match s with
  | "" => true
  | String c s' => P c && allChars P s'
  end.

Definition isHexDash (c : ascii) : bool := strings.contains "0123456789abcdef-" c.

(** The text [uuid.New().String()] returns: 36 bytes, hexadecimal digits and
    dashes. *)
Definition isUUIDText (u : string) : bool :=
  (String.length u =? 36)%nat && allChars isHexDash u.

Definition hasLiteral (ev : visit) : bool :=
  match Literal (node ev) with
  | Some _ => true
  | None => false
  end.

Fixpoint nearestHeading (ps : list Node) : option Z :=
  match ps with
  | [] => None
  | p :: ps' =>
      if NodeType_eqb (Typ p) Heading then Some (Level p) else nearestHeading ps'
  end.

(** The document opens with a heading: the first node with text that the
    walk meets lies in a heading.  The result is the level of that heading
    and the text of the node. *)
Definition leadingHeading (root : Node) : option (Z * string) :=
  match find hasLiteral (walkEvents [] root) with
  | Some ev =>
      match Literal (node ev), nearestHeading (parents ev) with
      | Some contents, Some level => Some (level, contents)
      | _, _ => None
      end
  | None => None
  end.

(** Greedy packing: an assembled chunk and the first piece of the chunk
    after it do not fit [max] together. *)
Definition greedy (max : Z) (F : Z -> list chunk -> string)
    (groups : list (list chunk)) : Prop :=
  forall (i : nat) (g1 g2 : list chunk),
    nth_error groups i = Some g1 ->
    nth_error groups (S i) = Some g2 ->
    max < len (F (1 + Z.of_nat i) g1) + len (renderChunk (hd (mkChunk "" []) g2)).
(** * Properties *)

(** ** The embedding on the repository's tests *)

Example SimpleSplit_basic :
  SimpleSplit "Some basic comment" 10 "" = ["Some basic"; " comment"].
Proof. reflexivity. Qed.

Example Itoa_examples :
  strconv.Itoa 0 = "0" /\ strconv.Itoa 7 = "7" /\ strconv.Itoa 10 = "10" /\
  strconv.Itoa 10000000 = "10000000" /\ strconv.Itoa (-42) = "-42".
Proof. repeat split; reflexivity. Qed.

Example Sprintf_examples :
  fmt.Sprintf " (%d/%s)" [fmt.Int 3; fmt.Str "7"] = " (3/7)" /\
  fmt.Sprintf "%s %s" [fmt.Str "##"; fmt.Str "Title"] = "## Title".
Proof. split; reflexivity. Qed.

Example strings_examples :
  strings.TrimLeft ("go" ++ LF ++ "good") ("go" ++ LF) = "d" /\
  strings.TrimRight ("ab" ++ LF ++ LF) LF = "ab" /\
  strings.Replace1 "<b>" "<" "</" = "</b>" /\
  strings.Index "abc" "c" = 2 /\ strings.Index "abc" "d" = -1.
Proof. repeat split; reflexivity. Qed.

Example test_case_3 :
  MarkdownSplitNode uuid0 titledDoc titledText 55 "" =
  (["### Comment with title (1/3)" ++ LF ++ LF ++ "Includes the ";
    "### Comment with title (2/3)" ++ LF ++ LF ++ "title in ever";
    "### Comment with title (3/3)" ++ LF ++ LF ++ "y split."], true).
Proof. vm_compute. reflexivity. Qed.

Example test_case_4 :
  MarkdownSplitNode uuid0 codeDoc codeText 30 "" =
  (["```thelang" ++ LF ++ "Splits codebloc" ++ LF ++ "```";
    "```thelang" ++ LF ++ "ks." ++ LF ++ "Properly" ++ LF ++ "an" ++ LF ++ "```";
    "```thelang" ++ LF ++ "d without break" ++ LF ++ "```";
    "```thelang" ++ LF ++ "ing syntax high" ++ LF ++ "```";
    "```thelang" ++ LF ++ "light" ++ LF ++ "```"], true).
Proof. vm_compute. reflexivity. Qed.

Example test_case_5 :
  MarkdownSplitNode uuid0 htmlDoc htmlText 60 "" =
  (["<tag1>Splits content </tag1>";
    "<tag2><tag1> nested in html spans </tag1></tag2>";
    "<tag3><tag2><tag1>properly</tag1></tag2></tag3>";
    "<tag2><tag1> and keeping tags.</tag1></tag2>"], true).
Proof. vm_compute. reflexivity. Qed.

Example test_case_7 :
  MarkdownSplitNode uuid0 htmlDoc htmlText 30 "" =
  (["<tag1>Splits content <tag2> ne"; "sted in html spans <tag3>prope";
    "rly</tag3> and keeping tags.</"; "tag2></tag1>"], false).
Proof. vm_compute. reflexivity. Qed.

Example test_case_8 :
  MarkdownSplitNode uuid0 twoTitlesDoc twoTitlesText 40 "" =
  (["# Main title (1/7)" ++ LF ++ LF ++ "Some tex";
    "# Main title (2/7)" ++ LF ++ LF ++ "t.";
    "# Main title (3/7)" ++ LF ++ LF ++ "## Sec" ++ LF ++ LF;
    "# Main title (4/7)" ++ LF ++ LF ++ "## ond" ++ LF ++ LF;
    "# Main title (5/7)" ++ LF ++ LF ++ "##  ti" ++ LF ++ LF;
    "# Main title (6/7)" ++ LF ++ LF ++ "## tle" ++ LF ++ LF;
    "# Main title (7/7)" ++ LF ++ LF ++ "Whatever"], true).
Proof. vm_compute. reflexivity. Qed.

Example test_case_10 :
  MarkdownSplitNode uuid0 linkDoc linkText 40 "" =
  (["[I'm an inline-](https://www.google.com)";
    "[style link](https://www.google.com)"], true).
Proof. vm_compute. reflexivity. Qed.

(** ** Strings: lengths, cuts and concatenation *)

Lemma append_nil_r (s : string) : s ++ "" = s.
Proof. induction s as [|c s IH]; simpl; [reflexivity | now rewrite IH]. Qed.

Lemma append_assoc (a b c : string) : (a ++ b) ++ c = a ++ (b ++ c).
Proof. induction a as [|x a IH]; simpl; [reflexivity | now rewrite IH]. Qed.

Lemma length_append (a b : string) :
  String.length (a ++ b) = (String.length a + String.length b)%nat.
Proof. induction a as [|x a IH]; simpl; [reflexivity | now rewrite IH]. Qed.

Lemma len_append (a b : string) : len (a ++ b) = len a + len b.
Proof. unfold len. rewrite length_append. lia. Qed.

Lemma len_nonneg (s : string) : 0 <= len s.
Proof. unfold len. lia. Qed.

Lemma len_zero (s : string) : len s = 0 -> s = "".
Proof. destruct s; [reflexivity | unfold len; simpl; lia]. Qed.

Lemma take_drop (n : nat) (s : string) : take n s ++ drop n s = s.
Proof.
  revert s. induction n as [|n IH]; intros [|c s]; simpl; try reflexivity.
  now rewrite IH.
Qed.

Lemma length_take (n : nat) (s : string) :
  String.length (take n s) = Nat.min n (String.length s).
Proof.
  revert s. induction n as [|n IH]; intros [|c s]; simpl; try reflexivity.
  now rewrite IH.
Qed.

Lemma length_drop (n : nat) (s : string) :
  String.length (drop n s) = (String.length s - n)%nat.
Proof.
  revert s. induction n as [|n IH]; intros [|c s]; simpl; try reflexivity.
  apply IH.
Qed.

Lemma take_all (n : nat) (s : string) :
  (String.length s <= n)%nat -> take n s = s.
Proof.
  revert s. induction n as [|n IH]; intros [|c s] H; simpl in *;
    try reflexivity; try lia.
  rewrite IH; [reflexivity | lia].
Qed.

Lemma drop_drop (a b : nat) (s : string) : drop a (drop b s) = drop (b + a) s.
Proof.
  revert s. induction b as [|b IH]; intros s; simpl.
  - reflexivity.
  - destruct s as [|c s]; [destruct a; reflexivity | apply IH].
Qed.

Lemma take_append (a b : string) : take (String.length a) (a ++ b) = a.
Proof. induction a as [|x a IH]; simpl; [destruct b; reflexivity | now rewrite IH]. Qed.

Lemma drop_append (a b : string) : drop (String.length a) (a ++ b) = b.
Proof. induction a as [|x a IH]; simpl; [reflexivity | exact IH]. Qed.

Lemma TrimSuffix_append (p sep : string) : TrimSuffix (p ++ sep) sep = p.
Proof.
  unfold TrimSuffix. rewrite length_append.
  replace (String.length p + String.length sep - String.length sep)%nat
    with (String.length p) by lia.
  rewrite drop_append, String.eqb_refl. apply take_append.
Qed.

Lemma join_app (xs ys : list string) : join (xs ++ ys) = join xs ++ join ys.
Proof.
  induction xs as [|x xs IH]; simpl; [reflexivity|].
  now rewrite IH, append_assoc.
Qed.

(** ** The fallback splitter: its pieces *)

Lemma addSep_removelast (sep : string) (ps : list string) :
  ps <> [] ->
  addSep sep ps = (map (fun p => (p ++ sep)%string) (removelast ps) ++ [last ps ""])%list.
Proof.
  induction ps as [|p ps IH]; intros H; [congruence|].
  destruct ps as [|q ps]; [reflexivity|].
  change (addSep sep (p :: q :: ps)) with ((p ++ sep) :: addSep sep (q :: ps)).
  rewrite IH by discriminate. reflexivity.
Qed.

Lemma length_cut (n m : nat) (s : string) : List.length (cut n m s) = n.
Proof.
  revert s. induction n as [|n IH]; intros s; [reflexivity|].
  destruct n as [|n]; [reflexivity|].
  change (cut (S (S n)) m s) with (take m s :: cut (S n) m (drop m s)).
  cbn [List.length]. now rewrite IH.
Qed.

Lemma join_cut (n m : nat) (s : string) : (0 < n)%nat -> join (cut n m s) = s.
Proof.
  revert s. induction n as [|n IH]; intros s H; [lia|].
  destruct n as [|n]; [simpl; apply append_nil_r|].
  change (cut (S (S n)) m s) with (take m s :: cut (S n) m (drop m s)).
  cbn [join fold_right]. fold (join (cut (S n) m (drop m s))).
  rewrite IH by lia. apply take_drop.
Qed.

Lemma cut_lengths (n m : nat) (s : string) :
  (0 < m)%nat -> (n * m < String.length s + m)%nat ->
  (String.length s <= n * m)%nat -> (0 < n)%nat ->
  Forall (fun p => String.length p = m) (removelast (cut n m s)) /\
  (0 < String.length (last (cut n m s) "") <= m)%nat.
Proof.
  intros Hm. revert s. induction n as [|n IH]; intros s Hlo Hhi Hn; [lia|].
  destruct n as [|n].
  - simpl. split; [constructor | lia].
  - change (cut (S (S n)) m s) with (take m s :: cut (S n) m (drop m s)).
    destruct (IH (drop m s)) as [IH1 IH2]; try rewrite length_drop; try lia.
    assert (Hne : cut (S n) m (drop m s) <> []).
    { intros E. apply (f_equal (@List.length string)) in E.
      rewrite length_cut in E. discriminate. }
    destruct (cut (S n) m (drop m s)) as [|q qs] eqn:E; [congruence|].
    split.
    + change (removelast (take m s :: q :: qs))
        with (take m s :: removelast (q :: qs)).
      constructor; [rewrite length_take; lia | exact IH1].
    + exact IH2.
Qed.

Lemma ceilDiv_bounds (a b : Z) :
  0 < b -> (ceilDiv a b - 1) * b < a <= ceilDiv a b * b.
Proof.
  intros Hb. unfold ceilDiv.
  pose proof (Z.div_mod a b ltac:(lia)) as Hdm.
  pose proof (Z.mod_pos_bound a b Hb) as Hmod.
  destruct (a mod b =? 0) eqn:E.
  - apply Z.eqb_eq in E. nia.
  - apply Z.eqb_neq in E. nia.
Qed.

Lemma SimpleSplit_loop_cut (text sep : string) (m N : Z) :
  0 < m -> (N - 1) * m < len text <= N * m ->
  forall (n : nat) (i : Z),
    0 <= i -> i + Z.of_nat n = N ->
    SimpleSplit_loop text sep m N n i =
    addSep sep (cut n (Z.to_nat m) (drop (Z.to_nat (i * m)) text)).
Proof.
  intros Hm HN. induction n as [|n IH]; intros i Hi Hin; [reflexivity|].
  cbn [SimpleSplit_loop]. rewrite IH by lia.
  assert (Hdrop : drop (Z.to_nat ((i + 1) * m)) text =
                  drop (Z.to_nat m) (drop (Z.to_nat (i * m)) text)).
  { rewrite drop_drop. f_equal. nia. }
  destruct n as [|n].
  - assert (i = N - 1) by lia. subst i.
    replace (N - 1 <? N - 1) with false by (symmetry; apply Z.ltb_ge; lia).
    simpl. f_equal. unfold slice, min.
    destruct (len text <? (N - 1 + 1) * m) eqn:E.
    + apply take_all. rewrite length_drop. unfold len in *. lia.
    + apply Z.ltb_ge in E. apply take_all. rewrite length_drop.
      unfold len in *. nia.
  - replace (i <? N - 1) with true by (symmetry; apply Z.ltb_lt; lia).
    change (cut (S (S n)) (Z.to_nat m) (drop (Z.to_nat (i * m)) text))
      with (take (Z.to_nat m) (drop (Z.to_nat (i * m)) text) ::
            cut (S n) (Z.to_nat m)
              (drop (Z.to_nat m) (drop (Z.to_nat (i * m)) text))).
    rewrite Hdrop.
    remember (cut (S n) (Z.to_nat m)
                (drop (Z.to_nat m) (drop (Z.to_nat (i * m)) text))) as tl eqn:Etl.
    assert (Hne : tl <> []).
    { intros E. apply (f_equal (@List.length string)) in E.
      rewrite Etl, length_cut in E. discriminate. }
    destruct tl as [|q qs]; [congruence|].
    cbn [addSep]. f_equal. f_equal. unfold slice, min.
    replace (len text <? (i + 1) * m) with false
      by (symmetry; apply Z.ltb_ge; nia).
    f_equal. nia.
Qed.

(** The pieces behind the output of [SimpleSplit] on the splitting path. *)
Lemma SimpleSplit_pieces (text : string) (max : Z) (sep : string) :
  len text > max -> max > len sep ->
  let m := max - len sep in
  let N := ceilDiv (len text) m in
  let pieces := cut (Z.to_nat N) (Z.to_nat m) text in
  0 < N /\
  Z.of_nat (List.length pieces) = N /\
  join pieces = text /\
  Forall (fun p => len p = m) (removelast pieces) /\
  0 < len (last pieces "") <= m /\
  SimpleSplit text max sep =
  (map (fun p => (p ++ sep)%string) (removelast pieces) ++ [last pieces ""])%list.
Proof.
  intros Hlen Hsep m N pieces.
  pose proof (len_nonneg sep) as Hs.
  assert (Hm : 0 < m) by (unfold m; lia).
  pose proof (ceilDiv_bounds (len text) m Hm) as HN. fold N in HN.
  assert (HNpos : 0 < N) by nia.
  assert (Hcut : Forall (fun p => String.length p = Z.to_nat m) (removelast pieces) /\
                 (0 < String.length (last pieces "") <= Z.to_nat m)%nat).
  { apply cut_lengths; try lia.
    - apply Nat2Z.inj_lt.
      rewrite Nat2Z.inj_add, Nat2Z.inj_mul, !Z2Nat.id by lia.
      unfold len in HN. nia.
    - apply Nat2Z.inj_le. rewrite Nat2Z.inj_mul, !Z2Nat.id by lia.
      unfold len in HN. nia. }
  destruct Hcut as [Hall Hlast].
  repeat split.
  - exact HNpos.
  - unfold pieces. rewrite length_cut. lia.
  - apply join_cut. lia.
  - eapply Forall_impl; [|exact Hall]. intros p Hp. cbv beta in *.
    unfold len. rewrite Hp. lia.
  - unfold len. lia.
  - unfold len. lia.
  - unfold SimpleSplit.
    replace (len text <=? max) with false by (symmetry; apply Z.leb_gt; lia).
    replace (max <=? len sep) with false by (symmetry; apply Z.leb_gt; lia).
    fold m. fold N.
    rewrite (SimpleSplit_loop_cut text sep m N Hm HN) by lia.
    simpl Z.to_nat. simpl drop. fold pieces.
    apply addSep_removelast.
    intros E. apply (f_equal (@List.length string)) in E.
    unfold pieces in E. rewrite length_cut in E. simpl in E. lia.
Qed.

Lemma SimpleSplit_fits (text : string) (max : Z) (sep : string) :
  Forall (fun c => len c <= max) (SimpleSplit text max sep).
Proof.
  destruct (Z.leb_spec (len text) max) as [Hle | Hgt].
  - unfold SimpleSplit. rewrite (proj2 (Z.leb_le _ _) Hle).
    constructor; [exact Hle | constructor].
  - destruct (Z.leb_spec max (len sep)) as [Hsep | Hsep].
    + unfold SimpleSplit.
      replace (len text <=? max) with false by (symmetry; apply Z.leb_gt; lia).
      rewrite (proj2 (Z.leb_le _ _) Hsep). constructor.
    + destruct (SimpleSplit_pieces text max sep) as (_ & _ & _ & Hall & Hlast & ->);
        try lia.
      apply Forall_app. split.
      * apply Forall_forall. intros c Hc. apply in_map_iff in Hc.
        destruct Hc as (p & <- & Hp).
        rewrite Forall_forall in Hall. specialize (Hall p Hp). cbv beta in Hall.
        rewrite len_append. lia.
      * pose proof (len_nonneg sep). constructor; [lia | constructor].
Qed.

(** C9. On the splitting path ([len text > max], [max > len sep])
    [SimpleSplit] returns [ceil(len text / (max - len sep))] consecutive
    substrings of [text], in order, each of at most [max - len sep] bytes,
    with [sep] appended to every chunk but the last; and
    [SimpleSplit "Some basic comment" 10 ""] is ["Some basic"; " comment"]. *)
Theorem C9_SimpleSplit_consecutive_pieces :
  (forall (text : string) (max : Z) (sep : string),
      len text > max -> max > len sep ->
      let m := max - len sep in
      let numChunks := ceilDiv (len text) m in
      (numChunks - 1) * m < len text <= numChunks * m /\
      exists pieces : list string,
        Z.of_nat (List.length pieces) = numChunks /\
        join pieces = text /\
        Forall (fun p => len p <= m) pieces /\
        SimpleSplit text max sep =
        (map (fun p => (p ++ sep)%string) (removelast pieces) ++
         [last pieces ""])%list) /\
  SimpleSplit "Some basic comment" 10 "" = ["Some basic"; " comment"].
Proof.
  split; [|reflexivity].
  intros text max sep Hlen Hsep m numChunks.
  pose proof (len_nonneg sep) as Hs.
  split; [apply ceilDiv_bounds; unfold m; lia|].
  destruct (SimpleSplit_pieces text max sep Hlen Hsep)
    as (Hpos & Hn & Hjoin & Hall & Hlast & Hout).
  fold m in Hpos, Hn, Hjoin, Hall, Hlast, Hout.
  fold numChunks in Hpos, Hn, Hjoin, Hall, Hlast, Hout.
  set (pieces := cut (Z.to_nat numChunks) (Z.to_nat m) text) in *.
  exists pieces. repeat split; try assumption.
  assert (Hne : pieces <> []).
  { intros E. rewrite E in Hn. simpl in Hn. lia. }
  rewrite (app_removelast_last "" Hne). apply Forall_app. split.
  - eapply Forall_impl; [|exact Hall]. intros p Hp. cbv beta in *. lia.
  - constructor; [lia | constructor].
Qed.

Lemma C9_witness :
  exists pieces : list string,
    join pieces = "Some basic comment" /\
    SimpleSplit "Some basic comment" 10 "" =
    (map (fun p => (p ++ "")%string) (removelast pieces) ++ [last pieces ""])%list.
Proof.
  destruct (proj1 C9_SimpleSplit_consecutive_pieces "Some basic comment" 10 "")
    as (_ & pieces & _ & Hjoin & _ & Hout).
  - vm_compute. reflexivity.
  - vm_compute. reflexivity.
  - exists pieces. split; assumption.
Defined.

(** C10. On the splitting path every chunk of [SimpleSplit] but the last
    is exactly [max] bytes long, and stripping the trailing [sep] from every
    chunk but the last and concatenating the chunks in order gives [text]
    back. *)
Theorem C10_SimpleSplit_lossless (text : string) (max : Z) (sep : string) :
  len text > max -> max > len sep ->
  let out := SimpleSplit text max sep in
  Forall (fun c => len c = max) (removelast out) /\
  join (map (fun c => TrimSuffix c sep) (removelast out)) ++ last out "" = text.
Proof.
  intros Hlen Hsep out.
  destruct (SimpleSplit_pieces text max sep Hlen Hsep)
    as (Hpos & Hn & Hjoin & Hall & Hlast & Hout).
  set (pieces := cut (Z.to_nat (ceilDiv (len text) (max - len sep)))
                   (Z.to_nat (max - len sep)) text) in *.
  unfold out. rewrite Hout.
  rewrite removelast_last, last_last.
  assert (Hne : pieces <> []).
  { intros E. rewrite E in Hn. simpl in Hn. lia. }
  split.
  - apply Forall_forall. intros c Hc. apply in_map_iff in Hc.
    destruct Hc as (p & <- & Hp).
    rewrite Forall_forall in Hall. specialize (Hall p Hp). cbv beta in Hall.
    rewrite len_append. lia.
  - rewrite map_map.
    rewrite (map_ext _ (fun p => p) (fun p => TrimSuffix_append p sep)).
    rewrite map_id.
    rewrite <- (append_nil_r (last pieces "")).
    change (last pieces "" ++ "") with (join [last pieces ""]).
    rewrite <- join_app, <- (app_removelast_last "" Hne). exact Hjoin.
Qed.

Lemma C10_witness :
  Forall (fun c => len c = 10) (removelast (SimpleSplit "Some basic comment" 10 "")) /\
  join (map (fun c => TrimSuffix c "")
          (removelast (SimpleSplit "Some basic comment" 10 ""))) ++
  last (SimpleSplit "Some basic comment" 10 "") "" = "Some basic comment".
Proof.
  apply (C10_SimpleSplit_lossless "Some basic comment" 10 "").
  - vm_compute. reflexivity.
  - vm_compute. reflexivity.
Defined.

(** ** The two guards at the head of both entry points *)

Lemma MarkdownSplitNode_fits_already (uuid : string) (root : Node)
    (text : string) (max : Z) (sep : string) :
  len text <= max -> MarkdownSplitNode uuid root text max sep = ([text], true).
Proof.
  intros H. unfold MarkdownSplitNode. now rewrite (proj2 (Z.leb_le _ _) H).
Qed.

Lemma MarkdownSplitNode_walks (uuid : string) (root : Node)
    (text : string) (max : Z) (sep : string) :
  len text > max -> max > len sep ->
  MarkdownSplitNode uuid root text max sep =
  let st := Walk (visitor max sep) root initState in
  if negb (canSplit st) then (SimpleSplit text max sep, false)
  else (chunksAsStr uuid (chunks st) max (baseTitle st) titleSuffixFmt, true).
Proof.
  intros H1 H2. unfold MarkdownSplitNode.
  replace (len text <=? max) with false by (symmetry; apply Z.leb_gt; lia).
  replace (max <=? len sep) with false by (symmetry; apply Z.leb_gt; lia).
  reflexivity.
Qed.

(** C6, as the code has it.  With [max <= len sep] both entry points return
    no chunks, and [MarkdownSplit] reports failure, when the text is longer
    than [max]; a text that already fits is returned whole by the first
    guard, whatever the separator. *)
Theorem C6_separator_does_not_fit (parse : string -> Node) (uuid text : string)
    (max : Z) (sep : string) :
  max <= len sep -> len text > max ->
  SimpleSplit text max sep = [] /\
  MarkdownSplit parse uuid text max sep = ([], false).
Proof.
  intros Hsep Hlen. unfold MarkdownSplit, MarkdownSplitNode, SimpleSplit.
  replace (len text <=? max) with false by (symmetry; apply Z.leb_gt; lia).
  rewrite (proj2 (Z.leb_le _ _) Hsep). split; reflexivity.
Qed.

Lemma C6_witness :
  SimpleSplit "abc" 1 "--" = [] /\
  MarkdownSplit (fun _ => container Document [container Paragraph [leaf Text "abc"]])
    uuid0 "abc" 1 "--" = ([], false).
Proof.
  apply (C6_separator_does_not_fit _ uuid0 "abc" 1 "--").
  - vm_compute. discriminate.
  - vm_compute. reflexivity.
Defined.

(** C6 as stated fails: the text ["a"] with [max = 1] and the separator
    ["--"] has [max <= len sep], and both entry points return the text. *)
Lemma C6_counterexample :
  1 <= len "--" /\
  SimpleSplit "a" 1 "--" = ["a"] /\
  MarkdownSplit (fun _ => container Document [container Paragraph [leaf Text "a"]])
    uuid0 "a" 1 "--" = (["a"], true).
Proof. repeat split. vm_compute. discriminate. Qed.

(** ** The walk *)

Lemma NodeType_eqb_eq (a b : NodeType) : NodeType_eqb a b = true <-> a = b.
Proof. split; [destruct a, b; simpl; congruence | intros ->; destruct b; reflexivity]. Qed.

Lemma runVisitor_app {S : Type} (v : S -> visit -> S * WalkStatus)
    (pre rest : list visit) (st st' : S) :
  reach v pre st = Some st' ->
  runVisitor v (pre ++ rest) st = runVisitor v rest st'.
Proof.
  revert st. induction pre as [|ev pre IH]; intros st H; simpl in *.
  - now inversion H.
  - destruct (v st ev) as [st1 [|]]; [now apply IH | discriminate].
Qed.

Lemma visitor_terminate (max : Z) (sep : string) (st st' : walkState) (ev : visit) :
  visitor max sep st ev = (st', Terminate) -> canSplit st' = false.
Proof.
  unfold visitor. destruct (NodeType_eqb (Typ (node ev)) List).
  - intros H. inversion H. reflexivity.
  - destruct (Literal (node ev)) as [contents|]; [|discriminate].
    destruct (parentLoop st contents (parents ev) []) as [st1|ws]; [discriminate|].
    destruct (nodeSwitch _ _ _ _) as [[c ws'] html].
    destruct (_ >=? max); intros H; inversion H; reflexivity.
Qed.

Lemma Sprintf_title (hashes contents : string) :
  fmt.Sprintf "%s %s" [fmt.Str hashes; fmt.Str contents] =
  hashes ++ " " ++ contents.
Proof. simpl. now rewrite append_nil_r. Qed.

Lemma Sprintf_titleSuffix (i : Z) (total : string) :
  fmt.Sprintf titleSuffixFmt [fmt.Int i; fmt.Str total] =
  " (" ++ strconv.Itoa i ++ "/" ++ total ++ ")" ++ LF ++ LF.
Proof. reflexivity. Qed.

Lemma Sprintf_token (uuid : string) :
  fmt.Sprintf "<%s>" [fmt.Str uuid] = "<" ++ uuid ++ ">".
Proof. reflexivity. Qed.

Lemma len_titleSuffixFmt : len titleSuffixFmt = 10.
Proof. reflexivity. Qed.

Lemma parentLoop_inl (st st' : walkState) (contents : string) (ps : list Node)
    (ws : list wrapper) :
  parentLoop st contents ps ws = inl st' ->
  chunks st = [] /\ baseTitle st = "" /\ chunks st' = [] /\
  canSplit st' = canSplit st /\ htmlWrappers st' = htmlWrappers st /\
  titleLen st' = len (baseTitle st') + 20 /\
  exists lvl, baseTitle st' = strings.Repeat "#" lvl ++ " " ++ contents.
Proof.
  revert ws. induction ps as [|p ps IH]; intros ws H; cbn [parentLoop] in H;
    [discriminate|].
  destruct (Typ p); try (now apply IH in H).
  cbv zeta in H.
  destruct ((baseTitle st =? "")%string) eqn:Eb; cbn [andb] in H;
    [|now apply IH in H].
  destruct (Z.of_nat (List.length (chunks st)) =? 0) eqn:Ec; [|now apply IH in H].
  clear IH. injection H as <-. cbn [chunks baseTitle titleLen canSplit htmlWrappers].
  apply String.eqb_eq in Eb. apply Z.eqb_eq in Ec.
  rewrite append_nil_r, len_titleSuffixFmt.
  destruct (chunks st); [|simpl in Ec; lia].
  split; [reflexivity|]. split; [assumption|]. do 3 (split; [reflexivity|]).
  split; [lia|]. exists (Level p). reflexivity.
Qed.

Lemma visitor_canSplit (max : Z) (sep : string) (st st' : walkState)
    (ev : visit) (s : WalkStatus) :
  visitor max sep st ev = (st', s) -> canSplit st = false -> canSplit st' = false.
Proof.
  unfold visitor. destruct (NodeType_eqb (Typ (node ev)) List).
  - intros H _. inversion H. reflexivity.
  - destruct (Literal (node ev)) as [contents|].
    2:{ intros H Hc. inversion H; subst. exact Hc. }
    destruct (parentLoop st contents (parents ev) []) as [st1|ws] eqn:E.
    + intros H Hc. inversion H; subst.
      apply parentLoop_inl in E. destruct E as (_ & _ & _ & -> & _). exact Hc.
    + destruct (nodeSwitch _ _ _ _) as [[c ws'] html].
      destruct (_ >=? max); intros H Hc; inversion H; subst; simpl; auto.
Qed.

(** A walk that calls the visitor on a list node ends with [canSplit]
    false: either that call stops it, or an earlier one did. *)
Lemma runVisitor_list (max : Z) (sep : string) (evs : list visit) (st : walkState) :
  (exists ev, In ev evs /\ Typ (node ev) = List) ->
  canSplit (runVisitor (visitor max sep) evs st) = false.
Proof.
  revert st. induction evs as [|ev evs IH]; intros st (e & Hin & Ht).
  - destruct Hin.
  - simpl. destruct (visitor max sep st ev) as [st' [|]] eqn:E.
    + destruct Hin as [-> | Hin].
      * unfold visitor in E.
        rewrite (proj2 (NodeType_eqb_eq _ _) Ht) in E. discriminate.
      * apply IH. exists e. split; assumption.
    + eapply visitor_terminate. exact E.
Qed.

Lemma walkEvents_list (n : Node) :
  wellFormed n = true -> containsList n = true ->
  forall ps, exists ev, In ev (walkEvents ps n) /\ Typ (node ev) = List.
Proof.
  induction n as [t lit lvl dest ttl cs IH] using Node_induction.
  intros Hwf Hl ps. simpl in Hwf, Hl.
  apply andb_prop in Hwf. destruct Hwf as [Hcont Hwf].
  apply orb_prop in Hl. destruct Hl as [Hl | Hl].
  - exists (mkVisit (mkNode t lit lvl dest ttl cs) true ps).
    split; [left; reflexivity | simpl; now apply NodeType_eqb_eq].
  - apply existsb_exists in Hl. destruct Hl as (c & Hc & Hcl).
    assert (Hic : isContainer t = true).
    { destruct (isContainer t); [reflexivity|]. destruct cs; [destruct Hc | discriminate]. }
    rewrite Forall_forall in IH. rewrite forallb_forall in Hwf.
    destruct (IH c Hc (Hwf c Hc) Hcl (mkNode t lit lvl dest ttl cs :: ps))
      as (ev & Hev & Ht).
    exists ev. split; [|exact Ht].
    simpl. rewrite Hic. right. apply in_or_app. left.
    apply in_flat_map. exists c. split; assumption.
Qed.

(** C5, as the code has it.  A text longer than [max] whose parsed tree
    contains a list is split by the fallback: [MarkdownSplit] reports
    failure and returns [SimpleSplit] on the same arguments.  (A text that
    fits [max] is returned whole, with success, before it is parsed.) *)
Theorem C5_list_forces_fallback (parse : string -> Node) (uuid text : string)
    (max : Z) (sep : string) :
  wellFormed (parse text) = true ->
  containsList (parse text) = true ->
  len text > max ->
  MarkdownSplit parse uuid text max sep = (SimpleSplit text max sep, false).
Proof.
  intros Hwf Hl Hlen. unfold MarkdownSplit.
  destruct (Z.leb_spec max (len sep)) as [Hsep | Hsep].
  - unfold MarkdownSplitNode, SimpleSplit.
    replace (len text <=? max) with false by (symmetry; apply Z.leb_gt; lia).
    rewrite (proj2 (Z.leb_le _ _) Hsep). reflexivity.
  - rewrite MarkdownSplitNode_walks by lia. cbv zeta.
    unfold Walk. rewrite runVisitor_list; [reflexivity|].
    now apply walkEvents_list.
Qed.

Lemma C5_witness :
  MarkdownSplit (fun _ => listDoc) uuid0 listText 40 "" =
  (SimpleSplit listText 40 "", false).
Proof.
  apply (C5_list_forces_fallback (fun _ => listDoc) uuid0 listText 40 "").
  - vm_compute. reflexivity.
  - vm_compute. reflexivity.
  - vm_compute. reflexivity.
Defined.

(** C5 as stated fails: a text with a list that fits [max] is returned
    whole and the split reports success. *)
Lemma C5_counterexample :
  containsList listDoc = true /\
  MarkdownSplit (fun _ => listDoc) uuid0 listText 100 "" = ([listText], true).
Proof. split; vm_compute; reflexivity. Qed.

(** ** Budget exhaustion *)

Lemma visitor_budget_abort (max : Z) (sep : string) (st : walkState)
    (ev : visit) (extra : Z) :
  extraLenAt sep st ev = Some extra -> extra >= max ->
  exists st', visitor max sep st ev = (st', Terminate) /\ canSplit st' = false /\
              chunks st' = chunks st.
Proof.
  unfold extraLenAt, visitor.
  destruct (NodeType_eqb (Typ (node ev)) List); [discriminate|].
  destruct (Literal (node ev)) as [contents|]; [|discriminate].
  destruct (parentLoop st contents (parents ev) []) as [st1|ws]; [discriminate|].
  destruct (nodeSwitch _ _ _ _) as [[c ws'] html].
  intros H Hge. injection H as <-.
  replace (_ >=? max) with true by (symmetry; apply Z.geb_le; lia).
  eexists. split; [reflexivity|]. split; reflexivity.
Qed.

(** C7. When the walk reaches a text run whose overhead
    [extraLen = wLen + titleLen + len sep] is at least [max], [MarkdownSplit]
    returns exactly [SimpleSplit] of the original text and reports failure;
    the pieces collected so far are not used. *)
Theorem C7_budget_exhaustion_falls_back (parse : string -> Node)
    (uuid text : string) (max : Z) (sep : string)
    (pre post : list visit) (ev : visit) (st : walkState) (extra : Z) :
  len text > max -> max > len sep ->
  walkEvents [] (parse text) = (pre ++ ev :: post)%list ->
  reach (visitor max sep) pre initState = Some st ->
  extraLenAt sep st ev = Some extra ->
  extra >= max ->
  MarkdownSplit parse uuid text max sep = (SimpleSplit text max sep, false).
Proof.
  intros Hlen Hsep Hev Hreach Hextra Hge. unfold MarkdownSplit.
  rewrite MarkdownSplitNode_walks by assumption. cbv zeta.
  unfold Walk. rewrite Hev, (runVisitor_app _ _ _ _ _ Hreach).
  destruct (visitor_budget_abort max sep st ev extra Hextra Hge)
    as (st' & Hv & Hc & _).
  cbn [runVisitor]. rewrite Hv, Hc. reflexivity.
Qed.

Lemma C7_witness :
  MarkdownSplit (fun _ => htmlDoc) uuid0 htmlText 30 "" =
  (SimpleSplit htmlText 30 "", false).
Proof.
  eapply (C7_budget_exhaustion_falls_back (fun _ => htmlDoc) uuid0 htmlText 30 ""
            (firstn 6 (walkEvents [] htmlDoc)) (skipn 7 (walkEvents [] htmlDoc))
            (mkVisit (leaf HTMLSpan "<tag3>") true
               (nth 1 (map node (walkEvents [] htmlDoc)) htmlDoc :: [htmlDoc]))
            _ 39).
  - vm_compute. reflexivity.
  - vm_compute. reflexivity.
  - vm_compute. reflexivity.
  - vm_compute. reflexivity.
  - vm_compute. reflexivity.
  - vm_compute. discriminate.
Defined.

(** ** The cutter *)

Lemma slice_from_0 (s : string) (n : Z) : slice s 0 n = take (Z.to_nat n) s.
Proof. unfold slice. now rewrite Z.sub_0_r. Qed.

Lemma slice_to_end (s : string) (n : Z) :
  0 <= n -> slice s n (len s) = drop (Z.to_nat n) s.
Proof.
  intros Hn. unfold slice. apply take_all. rewrite length_drop. unfold len. lia.
Qed.

Lemma eqb_empty_len (s : string) : (s =? "")%string = false -> 0 < len s.
Proof. destruct s; [discriminate | unfold len; simpl; lia]. Qed.

(** What [buildChunks] returns for a positive [chunkLen]: pieces that carry
    the wrappers they were given, are not empty, are at most [chunkLen] bytes
    long, and whose contents, in order, make up [contents]. *)
Lemma buildChunks_loop_spec (chunkLen : Z) (ws : list wrapper) :
  1 <= chunkLen ->
  forall (fuel : nat) (contents : string),
    (String.length contents <= fuel)%nat ->
    join (map content (buildChunks_loop fuel contents chunkLen ws)) = contents /\
    Forall (fun p => wrappers p = ws /\ 0 < len (content p) <= chunkLen)
      (buildChunks_loop fuel contents chunkLen ws).
Proof.
  intros Hc. induction fuel as [|fuel IH]; intros contents Hf.
  - destruct contents; [|simpl in Hf; lia]. split; [reflexivity | constructor].
  - cbn [buildChunks_loop].
    destruct ((contents =? "")%string) eqn:Ee.
    { apply String.eqb_eq in Ee. subst. split; [reflexivity | constructor]. }
    apply eqb_empty_len in Ee.
    destruct (Z.leb_spec (len contents) chunkLen) as [Hle | Hgt].
    { split; [simpl; apply append_nil_r|].
      constructor; [|constructor]. simpl. split; [reflexivity | lia]. }
    rewrite slice_from_0, slice_to_end by lia.
    destruct (IH (drop (Z.to_nat chunkLen) contents)) as [IHj IHa].
    { rewrite length_drop. unfold len in *. lia. }
    split.
    + cbn [map join fold_right content].
      fold (join (map content (buildChunks_loop fuel
                    (drop (Z.to_nat chunkLen) contents) chunkLen ws))).
      rewrite IHj. apply take_drop.
    + constructor; [|exact IHa]. cbn [wrappers content].
      split; [reflexivity|]. unfold len in *. rewrite length_take. lia.
Qed.

Lemma buildChunks_spec (contents : string) (chunkLen : Z) (ws : list wrapper) :
  1 <= chunkLen ->
  join (map content (buildChunks contents chunkLen ws)) = contents /\
  Forall (fun p => wrappers p = ws /\ 0 < len (content p) <= chunkLen)
    (buildChunks contents chunkLen ws).
Proof. intros H. now apply buildChunks_loop_spec. Qed.

(** The fuel of [buildChunks] is enough: more of it changes nothing. *)
Lemma buildChunks_loop_fuel (chunkLen : Z) (ws : list wrapper) :
  1 <= chunkLen ->
  forall (fuel : nat) (contents : string),
    (String.length contents <= fuel)%nat ->
    buildChunks_loop fuel contents chunkLen ws = buildChunks contents chunkLen ws.
Proof.
  intros Hc. unfold buildChunks.
  assert (H : forall f1 f2 contents,
             (String.length contents <= f1)%nat ->
             (String.length contents <= f2)%nat ->
             buildChunks_loop f1 contents chunkLen ws =
             buildChunks_loop f2 contents chunkLen ws).
  { induction f1 as [|f1 IH]; intros f2 contents H1 H2.
    - destruct contents; [|simpl in H1; lia]. destruct f2; reflexivity.
    - destruct f2 as [|f2].
      + destruct contents; [reflexivity | simpl in H2; lia].
      + cbn [buildChunks_loop].
        destruct ((contents =? "")%string) eqn:Ee; [reflexivity|].
        apply eqb_empty_len in Ee.
        destruct (Z.leb_spec (len contents) chunkLen); [reflexivity|].
        f_equal. rewrite slice_to_end by lia.
        apply IH; rewrite length_drop; unfold len in *; lia. }
  intros fuel contents Hf. apply H; [exact Hf | lia].
Qed.

(** ** A closing tag that closes nothing *)

Lemma nodeSwitch_unmatched (contents : string) (ws html : list wrapper) :
  isHTMLOpeningTag contents = false ->
  html = [] \/ contents <> end_ (last html (mkWrapper "" "")) ->
  nodeSwitch HTMLSpan contents ws html = (contents, ws, html).
Proof.
  intros Ho Hm. cbn [nodeSwitch]. rewrite Ho.
  destruct Hm as [-> | Hm]; [reflexivity|].
  apply String.eqb_neq in Hm. rewrite Hm, andb_false_r. reflexivity.
Qed.

(** C8, as the code has it.  A raw-HTML-span node holding a closing tag
    that is not the close text on top of the stack of open tags (or met
    with the stack empty) leaves the stack as it is; and when the run passes
    the budget check, its literal text is cut into pieces like any text at
    that place: each piece carries the ancestor wrappers followed by the
    wrapper of every tag still open, so the text is bare only when there are
    none. *)
Theorem C8_unmatched_closing_tag_is_text (max : Z) (sep : string)
    (st : walkState) (ev : visit) (contents : string) :
  Typ (node ev) = HTMLSpan ->
  Literal (node ev) = Some contents ->
  isHTMLOpeningTag contents = false ->
  htmlWrappers st = [] \/
  contents <> end_ (last (htmlWrappers st) (mkWrapper "" "")) ->
  htmlWrappers (fst (visitor max sep st ev)) = htmlWrappers st /\
  forall ws,
    parentLoop st contents (parents ev) [] = inr ws ->
    let all := (ws ++ htmlWrappers st)%list in
    wrappersLen all + titleLen st + len sep < max ->
    exists pieces,
      visitor max sep st ev =
      (mkState (chunks st ++ pieces) (baseTitle st) (titleLen st) (canSplit st)
         (htmlWrappers st), GoToNext) /\
      join (map content pieces) = contents /\
      Forall (fun p => wrappers p = all) pieces.
Proof.
  intros Ht Hl Ho Hm. unfold visitor. rewrite Ht, Hl. cbn [NodeType_eqb].
  destruct (parentLoop st contents (parents ev) []) as [st1|ws0] eqn:E.
  - split; [|discriminate]. cbn [fst].
    apply parentLoop_inl in E. now destruct E as (_ & _ & _ & _ & -> & _).
  - rewrite (nodeSwitch_unmatched contents _ _ Ho Hm). split.
    + destruct (_ >=? max); reflexivity.
    + intros ws Hws Hlt. injection Hws as <-.
      set (all := (ws0 ++ htmlWrappers st)%list) in *.
      replace (wrappersLen all + titleLen st + len sep >=? max) with false
        by (symmetry; rewrite Z.geb_leb; apply Z.leb_gt; lia).
      destruct (buildChunks_spec contents
                  (max - (wrappersLen all + titleLen st + len sep)) all)
        as [Hj Ha]; [lia|].
      eexists. split; [reflexivity|]. split; [exact Hj|].
      eapply Forall_impl; [|exact Ha]. intros p [Hp _]. exact Hp.
Qed.

Lemma C8_witness :
  exists pieces,
    visitor 20 "" (mkState [] "" 0 true [mkWrapper "<a>" "</a>"])
      (mkVisit (leaf HTMLSpan "</b>") true [container Paragraph []]) =
    (mkState pieces "" 0 true [mkWrapper "<a>" "</a>"], GoToNext) /\
    join (map content pieces) = "</b>" /\
    Forall (fun p => wrappers p = [mkWrapper "<a>" "</a>"]) pieces.
Proof.
  assert (Hm : [mkWrapper "<a>" "</a>"] = [] \/
               "</b>" <> end_ (last [mkWrapper "<a>" "</a>"] (mkWrapper "" ""))).
  { right. intros E. vm_compute in E. discriminate E. }
  pose proof (C8_unmatched_closing_tag_is_text 20 ""
                (mkState [] "" 0 true [mkWrapper "<a>" "</a>"])
                (mkVisit (leaf HTMLSpan "</b>") true [container Paragraph []])
                "</b>" eq_refl eq_refl eq_refl Hm) as [_ H].
  specialize (H [] eq_refl).
  apply H. vm_compute. reflexivity.
Defined.

(** C8 as stated fails: in ["<a>unmatched </b> tag"] the closing tag [</b>]
    closes nothing, and its text comes out wrapped in the open tag [<a>]. *)
Lemma C8_counterexample :
  chunks (Walk (visitor 20 "") unmatchedDoc initState) =
  [mkChunk "unmatched " [mkWrapper "<a>" "</a>"];
   mkChunk "</b>" [mkWrapper "<a>" "</a>"];
   mkChunk " tag" [mkWrapper "<a>" "</a>"]] /\
  MarkdownSplit (fun _ => unmatchedDoc) uuid0 unmatchedText 20 "" =
  (["<a>unmatched </a>"; "<a></b></a>"; "<a> tag</a>"], true).
Proof. split; vm_compute; reflexivity. Qed.

(** ** Code spans *)

(** C4 at a failing input.  The code span holds the first line ["go"] and
    the code ["good code is cut here and there"]; the pieces hold
    ["d code is cut here and there"]: [strings.TrimLeft] has taken the first
    line for a set of characters and removed the leading ["goo"] of the code
    with it. *)
Theorem C4_code_span_loses_leading_bytes :
  MarkdownSplit (fun _ => goDoc) uuid0 goText 30 "" =
  (["```go" ++ LF ++ "d code is cut here a" ++ LF ++ "```";
    "```go" ++ LF ++ "nd there" ++ LF ++ "```"], true) /\
  join (map content (chunks (Walk (visitor 30 "") goDoc initState))) =
  "d code is cut here and there".
Proof. split; vm_compute; reflexivity. Qed.

(** ** Rendering a piece *)

Lemma fold_begin_end (ws : list wrapper) (pre s post : string) :
  fold_left (fun acc w => acc ++ end_ w) ws
    (fold_left (fun acc w => begin w ++ acc) ws pre ++ s ++ post) =
  nest ws (pre ++ s ++ post).
Proof.
  revert pre post. induction ws as [|w ws IH]; intros pre post; [reflexivity|].
  cbn [fold_left nest].
  rewrite !append_assoc, IH. unfold nest. now rewrite !append_assoc.
Qed.

(** The two loops of [chunksAsStr] over the wrappers nest them. *)
Lemma renderChunk_nest (c : chunk) :
  renderChunk c = nest (wrappers c) (content c).
Proof.
  unfold renderChunk.
  rewrite <- (append_nil_r (content c)) at 1.
  now rewrite fold_begin_end, append_nil_r.
Qed.

Lemma wrappersLen_acc (ws : list wrapper) (a : Z) :
  fold_left (fun wLen w => wLen + (len (begin w) + len (end_ w))) ws a =
  a + wrappersLen ws.
Proof.
  unfold wrappersLen. revert a. induction ws as [|w ws IH]; intros a; simpl.
  - lia.
  - rewrite IH, (IH (len (begin w) + len (end_ w))). lia.
Qed.

Lemma len_nest (ws : list wrapper) (s : string) :
  len (nest ws s) = wrappersLen ws + len s.
Proof.
  revert s. induction ws as [|w ws IH]; intros s.
  - reflexivity.
  - cbn [nest fold_left]. fold (nest ws (begin w ++ s ++ end_ w)).
    rewrite IH, !len_append. unfold wrappersLen at 2. cbn [fold_left].
    rewrite wrappersLen_acc. lia.
Qed.

Lemma len_renderChunk (c : chunk) :
  len (renderChunk c) = wrappersLen (wrappers c) + len (content c).
Proof. rewrite renderChunk_nest. apply len_nest. Qed.

(** ** What the walk maintains *)

Lemma title_not_empty (lvl : Z) (contents : string) :
  strings.Repeat "#" lvl ++ " " ++ contents <> "".
Proof.
  intros E. apply (f_equal String.length) in E.
  rewrite length_append in E. simpl in E. lia.
Qed.

Lemma visitor_inv (max : Z) (sep : string) (st st' : walkState) (ev : visit)
    (s : WalkStatus) :
  walkInv max sep st -> visitor max sep st ev = (st', s) -> walkInv max sep st'.
Proof.
  intros [Ht Hp]. unfold visitor.
  destruct (NodeType_eqb (Typ (node ev)) List).
  { intros H. injection H as <- _. split; assumption. }
  destruct (Literal (node ev)) as [contents|].
  2:{ intros H. injection H as <- _. split; assumption. }
  destruct (parentLoop st contents (parents ev) []) as [st1|ws] eqn:E.
  - intros H. injection H as <- _.
    apply parentLoop_inl in E.
    destruct E as (_ & _ & Hc & _ & _ & Htl & lvl & Hb).
    split.
    + right. split; [rewrite Hb; apply title_not_empty | exact Htl].
    + rewrite Hc. constructor.
  - destruct (nodeSwitch _ _ _ _) as [[c ws'] html].
    destruct (Z.geb_spec (wrappersLen (ws' ++ html) + titleLen st + len sep) max)
      as [Hge | Hlt].
    + intros H. injection H as <- _. split; assumption.
    + intros H. injection H as <- _. split; [exact Ht|].
      cbn [chunks titleLen]. apply Forall_app. split; [exact Hp|].
      destruct (buildChunks_spec c
                  (max - (wrappersLen (ws' ++ html) + titleLen st + len sep))
                  (ws' ++ html)) as [_ Ha]; [lia|].
      eapply Forall_impl; [|exact Ha]. intros p [Hw Hl].
      unfold pieceFits. rewrite len_renderChunk, Hw. lia.
Qed.

Lemma runVisitor_inv (max : Z) (sep : string) (evs : list visit) (st : walkState) :
  walkInv max sep st -> walkInv max sep (runVisitor (visitor max sep) evs st).
Proof.
  revert st. induction evs as [|ev evs IH]; intros st H; [exact H|].
  cbn [runVisitor]. destruct (visitor max sep st ev) as [st' [|]] eqn:E.
  - apply IH. eapply visitor_inv; eassumption.
  - eapply visitor_inv; eassumption.
Qed.

Lemma initState_inv (max : Z) (sep : string) : walkInv max sep initState.
Proof. split; [left; split; reflexivity | constructor]. Qed.

(** ** Lists numbered from [k] *)

Lemma mapFrom_app {A B : Type} (f : Z -> A -> B) (k : Z) (l1 l2 : list A) :
  mapFrom f k (l1 ++ l2) =
  (mapFrom f k l1 ++ mapFrom f (k + Z.of_nat (List.length l1)) l2)%list.
Proof.
  revert k. induction l1 as [|x l1 IH]; intros k.
  - simpl. now rewrite Z.add_0_r.
  - cbn [mapFrom app List.length]. rewrite IH. do 3 f_equal. lia.
Qed.

Lemma length_mapFrom {A B : Type} (f : Z -> A -> B) (k : Z) (l : list A) :
  List.length (mapFrom f k l) = List.length l.
Proof. revert k. induction l as [|x l IH]; intros k; simpl; [|rewrite IH]; reflexivity. Qed.

Lemma allFrom_app {A : Type} (P : Z -> A -> Prop) (k : Z) (l1 l2 : list A) :
  allFrom P k (l1 ++ l2) <->
  allFrom P k l1 /\ allFrom P (k + Z.of_nat (List.length l1)) l2.
Proof.
  revert k. induction l1 as [|x l1 IH]; intros k.
  - simpl. rewrite Z.add_0_r. tauto.
  - cbn [allFrom app List.length]. rewrite IH.
    replace (k + 1 + Z.of_nat (List.length l1))
      with (k + Z.of_nat (S (List.length l1))) by lia.
    tauto.
Qed.

Lemma nth_mapFrom {A B : Type} (f : Z -> A -> B) (k : Z) (l : list A)
    (i : nat) (d : B) (d' : A) :
  (i < List.length l)%nat ->
  nth i (mapFrom f k l) d = f (k + Z.of_nat i) (nth i l d').
Proof.
  revert k i. induction l as [|x l IH]; intros k i Hi; [simpl in Hi; lia|].
  destruct i as [|i]; cbn [mapFrom nth].
  - now rewrite Z.add_0_r.
  - rewrite IH by (simpl in Hi; lia). f_equal. lia.
Qed.

Lemma allFrom_nth {A : Type} (P : Z -> A -> Prop) (k : Z) (l : list A)
    (i : nat) (d : A) :
  allFrom P k l -> (i < List.length l)%nat -> P (k + Z.of_nat i) (nth i l d).
Proof.
  revert k i. induction l as [|x l IH]; intros k i H Hi; [simpl in Hi; lia|].
  destruct H as [Hx Hl]. destruct i as [|i]; cbn [nth].
  - now rewrite Z.add_0_r.
  - replace (k + Z.of_nat (S i)) with (k + 1 + Z.of_nat i) by lia.
    apply IH; [exact Hl | simpl in Hi; lia].
Qed.

Lemma Forall_nth_iff {A : Type} (Q : A -> Prop) (l : list A) (d : A) :
  (forall i, (i < List.length l)%nat -> Q (nth i l d)) -> Forall Q l.
Proof.
  intros H. apply Forall_forall. intros x Hx.
  destruct (In_nth l x d Hx) as (i & Hi & <-). now apply H.
Qed.

(** ** The assembler *)

Lemma body_snoc (g : list chunk) (c : chunk) :
  body (g ++ [c]) = body g ++ renderChunk c.
Proof.
  unfold body. rewrite map_app, join_app. simpl. now rewrite append_nil_r.
Qed.

Lemma body_single (c : chunk) : body [c] = renderChunk c.
Proof. unfold body. simpl. apply append_nil_r. Qed.

Lemma new_chunk_titleOf (bt sfmt tid : string) (k : Z) (x : string) :
  (if negb (bt =? "")%string
   then bt ++ fmt.Sprintf sfmt [fmt.Int k; fmt.Str tid] ++ x
   else x) = titleOf bt sfmt tid k ++ x.
Proof.
  unfold titleOf. destruct (negb (bt =? "")%string); [|reflexivity].
  now rewrite append_assoc.
Qed.

Lemma last_or_nil {A : Type} (l : list A) :
  l = [] \/ exists l' a, l = (l' ++ [a])%list.
Proof.
  induction l as [|x l' _] using rev_ind; [left; reflexivity|].
  right. now exists l', x.
Qed.

Section Assembler.
Variables (max : Z) (bt sfmt tid : string).

Let T : Z -> string := titleOf bt sfmt tid.
Let F : Z -> list chunk -> string := fun k g => T k ++ body g.
Let step := chunksAsStr_step max bt sfmt tid.

Lemma chunksAsStr_step_shape (groups : list (list chunk)) (c : chunk) :
  Forall (fun g => g <> []) groups ->
  allFrom (groupFits max T) 1 groups ->
  exists groups',
    step (mapFrom F 1 groups, 1 + Z.of_nat (List.length groups)) c =
    (mapFrom F 1 groups', 1 + Z.of_nat (List.length groups')) /\
    List.concat groups' = (List.concat groups ++ [c])%list /\
    Forall (fun g => g <> []) groups' /\
    allFrom (groupFits max T) 1 groups'.
Proof.
  intros Hne Hfit. unfold step, chunksAsStr_step.
  destruct (last_or_nil groups) as [-> | (gs & g & ->)].
  - exists [[c]]. cbn [mapFrom List.length Z.of_nat app List.concat].
    cbn [andb Z.ltb Z.compare]. rewrite new_chunk_titleOf.
    split; [unfold F, T; now rewrite body_single|].
    split; [reflexivity|]. split; [constructor; [discriminate | constructor]|].
    split; [right; now exists c | exact I].
  - rewrite mapFrom_app. cbn [mapFrom].
    set (k := 1 + Z.of_nat (List.length gs)).
    rewrite last_last, removelast_last.
    rewrite length_app, length_mapFrom. cbn [List.length].
    replace (0 <? Z.of_nat (List.length gs + 1)) with true
      by (symmetry; apply Z.ltb_lt; lia).
    cbn [andb].
    apply Forall_app in Hne. destruct Hne as [Hne1 Hne2].
    apply allFrom_app in Hfit. destruct Hfit as [Hfit1 Hfit2].
    destruct (Z.leb_spec (len (F k g) + len (renderChunk c)) max) as [Hle | Hgt].
    + exists (gs ++ [g ++ [c]])%list.
      rewrite mapFrom_app. cbn [mapFrom]. fold k.
      rewrite !length_app. cbn [List.length].
      split; [|split; [|split]].
      * f_equal. f_equal. f_equal. unfold F. now rewrite body_snoc, append_assoc.
      * rewrite !concat_app. cbn [List.concat]. now rewrite !app_nil_r, app_assoc.
      * apply Forall_app. split; [exact Hne1|].
        constructor; [destruct g; discriminate | constructor].
      * apply allFrom_app. split; [exact Hfit1|].
        split; [|exact I]. left. fold k.
        change (T k ++ body (g ++ [c])) with (F k (g ++ [c])).
        unfold F. rewrite body_snoc, <- append_assoc, len_append.
        exact Hle.
    + exists (gs ++ [g] ++ [[c]])%list.
      rewrite new_chunk_titleOf.
      rewrite !mapFrom_app. cbn [mapFrom]. fold k.
      rewrite !length_app. cbn [List.length].
      split; [|split; [|split]].
      * f_equal.
        -- rewrite <- app_assoc. cbn [app]. do 3 f_equal.
           unfold F, T. rewrite body_single. f_equal. f_equal. lia.
        -- lia.
      * rewrite !concat_app. cbn [List.concat]. now rewrite !app_nil_r, app_assoc.
      * apply Forall_app. split; [exact Hne1|].
        apply Forall_app. split; [exact Hne2|].
        constructor; [discriminate | constructor].
      * apply allFrom_app. split; [exact Hfit1|].
        apply allFrom_app. split; [exact Hfit2|].
        split; [right; now exists c | exact I].
Qed.

Lemma chunksAsStr_fold_shape (cs : list chunk) (groups : list (list chunk)) :
  Forall (fun g => g <> []) groups ->
  allFrom (groupFits max T) 1 groups ->
  exists groups',
    fold_left step cs (mapFrom F 1 groups, 1 + Z.of_nat (List.length groups)) =
    (mapFrom F 1 groups', 1 + Z.of_nat (List.length groups')) /\
    List.concat groups' = (List.concat groups ++ cs)%list /\
    Forall (fun g => g <> []) groups' /\
    allFrom (groupFits max T) 1 groups'.
Proof.
  revert groups. induction cs as [|c cs IH]; intros groups Hne Hfit.
  - exists groups. rewrite app_nil_r. repeat split; assumption.
  - destruct (chunksAsStr_step_shape groups c Hne Hfit)
      as (g1 & Hs & Hc & Hne1 & Hfit1).
    destruct (IH g1 Hne1 Hfit1) as (g2 & Hs2 & Hc2 & Hne2 & Hfit2).
    exists g2. cbn [fold_left]. rewrite Hs, Hs2.
    split; [reflexivity|]. split; [|split; assumption].
    rewrite Hc2, Hc, <- app_assoc. reflexivity.
Qed.

(** The chunks [chunksAsStr] assembles: the pieces fall into consecutive
    non-empty groups, one per chunk, and chunk [k] is its title followed by
    the rendered pieces of its group. *)
Lemma chunksAsStr_loop_shape (cs : list chunk) :
  exists groups,
    fst (chunksAsStr_loop cs max bt sfmt tid) = mapFrom F 1 groups /\
    List.concat groups = cs /\
    Forall (fun g => g <> []) groups /\
    allFrom (groupFits max T) 1 groups.
Proof.
  destruct (chunksAsStr_fold_shape cs [] (Forall_nil _) I)
    as (groups & Hs & Hc & Hne & Hfit).
  exists groups. unfold chunksAsStr_loop.
  change (@nil string, 1) with
    (mapFrom F 1 [], 1 + Z.of_nat (@List.length (list chunk) [])).
  fold step. rewrite Hs. repeat split; assumption.
Qed.
End Assembler.

(** ** Searching and replacing *)

Lemma prefix_append (p r : string) : prefix p (p ++ r) = true.
Proof.
  induction p as [|c p IH]; [destruct r; reflexivity|]. simpl.
  destruct (ascii_dec c c); [exact IH | congruence].
Qed.

Lemma prefix_inv (p s : string) :
  prefix p s = true -> s = p ++ drop (String.length p) s.
Proof.
  revert s. induction p as [|c p IH]; intros s H; [reflexivity|].
  destruct s as [|d s]; [discriminate|]. cbn [prefix] in H.
  destruct (ascii_dec c d); [|discriminate]. subst d.
  simpl. f_equal. now apply IH.
Qed.

Lemma indexFrom_Some (s old : string) (i : nat) :
  strings.indexFrom s old = Some i ->
  (i + String.length old <= String.length s)%nat /\
  s = take i s ++ old ++ drop (i + String.length old) s.
Proof.
  revert i. induction s as [|c s IH]; intros i H.
  - destruct old; [|discriminate]. injection H as <-. split; reflexivity.
  - cbn [strings.indexFrom] in H. destruct (prefix old (String c s)) eqn:E.
    + injection H as <-. apply prefix_inv in E. split.
      * apply (f_equal String.length) in E. rewrite length_append in E. lia.
      * exact E.
    + destruct (strings.indexFrom s old) as [j|] eqn:Ej; [|discriminate].
      injection H as <-. destruct (IH j eq_refl) as [Hl Hs].
      split; [simpl; lia|]. simpl. f_equal. exact Hs.
Qed.

Lemma indexFrom_occurs (a old b : string) :
  exists i, strings.indexFrom (a ++ old ++ b) old = Some i /\
            (i <= String.length a)%nat.
Proof.
  induction a as [|c a (i & Hi & Hle)].
  - exists 0%nat. split; [|lia]. simpl.
    destruct (old ++ b) eqn:E.
    + destruct old; [reflexivity | discriminate].
    + cbn [strings.indexFrom]. rewrite <- E. now rewrite prefix_append.
  - change (String c a ++ old ++ b) with (String c (a ++ old ++ b)).
    cbn [strings.indexFrom].
    destruct (prefix old (String c (a ++ old ++ b))).
    + exists 0%nat. split; [reflexivity | lia].
    + exists (S i). rewrite Hi. split; [reflexivity | simpl; lia].
Qed.



(** ** Decimal numbers *)



(** The fuel of [Itoa] is enough: more of it changes nothing. *)
Lemma digits_fuel (f1 : nat) :
  forall (f2 : nat) (n : Z) (acc : string),
    0 <= n < 2 ^ Z.of_nat f1 -> n < 2 ^ Z.of_nat f2 ->
    (1 <= f1)%nat -> (1 <= f2)%nat ->
    strconv.digits f1 n acc = strconv.digits f2 n acc.
Proof.
  induction f1 as [|f1 IH]; intros f2 n acc H1 H2 Hf1 Hf2; [lia|].
  destruct f2 as [|f2]; [lia|]. cbn [strconv.digits].
  destruct (Z.ltb_spec n 10) as [Hlt | Hge]; [reflexivity|].
  assert (Hp : forall f, n < 2 ^ Z.of_nat (S f) ->
                         (1 <= f)%nat /\ n / 10 < 2 ^ Z.of_nat f).
  { intros f Hf.
    replace (Z.of_nat (S f)) with (Z.of_nat f + 1) in Hf by lia.
    rewrite Z.pow_add_r in Hf by lia.
    split.
    - destruct f; [simpl in Hf; lia | lia].
    - apply Z.div_lt_upper_bound; lia. }
  destruct (Hp f1 (proj2 H1)) as [Ha Hb]. destruct (Hp f2 H2) as [Hc Hd].
  apply IH; try assumption. split; [apply Z.div_pos; lia | exact Hb].
Qed.

(** ** The length bound *)


Lemma titleOf_empty (sfmt tid : string) (k : Z) : titleOf "" sfmt tid k = "".
Proof. reflexivity. Qed.

Lemma titleOf_title (bt tid : string) (k : Z) :
  bt <> "" ->
  titleOf bt titleSuffixFmt tid k =
  (bt ++ " (" ++ strconv.Itoa k ++ "/") ++ tid ++ (")" ++ LF ++ LF).
Proof.
  intros H. unfold titleOf. apply String.eqb_neq in H. rewrite H. cbn [negb].
  rewrite Sprintf_titleSuffix. now rewrite !append_assoc.
Qed.

Lemma In_concat_group {A : Type} (groups : list (list A)) (g : list A) (x : A) :
  In g groups -> In x g -> In x (List.concat groups).
Proof. intros Hg Hx. apply in_concat. now exists g. Qed.




(** ** Ten million chunks *)









(** ** The placeholder and its first occurrence *)

Lemma allChars_append (P : ascii -> bool) (a b : string) :
  allChars P (a ++ b) = allChars P a && allChars P b.
Proof.
  induction a as [|c a IH]; [reflexivity|]. simpl. now rewrite IH, andb_assoc.
Qed.

Lemma allChars_impl (P Q : ascii -> bool) (s : string) :
  (forall c, P c = true -> Q c = true) ->
  allChars P s = true -> allChars Q s = true.
Proof.
  intros H. induction s as [|c s IH]; [reflexivity|]. simpl.
  intros Hs. apply andb_prop in Hs. destruct Hs as [Hc Hs].
  now rewrite (H c Hc), IH.
Qed.

Lemma option_map_plus_0 (o : option nat) : option_map (plus 0) o = o.
Proof. destruct o; reflexivity. Qed.

Lemma option_map_S_plus (n : nat) (o : option nat) :
  option_map S (option_map (plus n) o) = option_map (plus (S n)) o.
Proof. destruct o; reflexivity. Qed.

(** A string that starts with [x] is not found in a run of other
    characters. *)
Lemma indexFrom_skip_chars (x : ascii) (sub' m s : string) :
  allChars (fun c => negb (Ascii.eqb c x)) m = true ->
  strings.indexFrom (m ++ s) (String x sub') =
  option_map (plus (String.length m)) (strings.indexFrom s (String x sub')).
Proof.
  induction m as [|c m IH]; intros Hm.
  - simpl. now rewrite option_map_plus_0.
  - simpl in Hm. apply andb_prop in Hm. destruct Hm as [Hc Hm].
    change (String c m ++ s) with (String c (m ++ s)).
    cbn [strings.indexFrom prefix].
    destruct (ascii_dec x c) as [-> | _].
    + rewrite Ascii.eqb_refl in Hc. discriminate.
    + rewrite IH by assumption. apply option_map_S_plus.
Qed.

(** A prefix that runs over the end of [u] into a space holds a space. *)
Lemma prefix_across (sp : ascii) (t u X : string) :
  prefix t (u ++ String sp X) = true ->
  (exists r, u = t ++ r) \/ allChars (fun c => negb (Ascii.eqb c sp)) t = false.
Proof.
  revert u. induction t as [|x t IH]; intros u H.
  - left. now exists u.
  - destruct u as [|c u].
    + cbn [append prefix] in H. destruct (ascii_dec x sp) as [-> | _]; [|discriminate].
      right. simpl. now rewrite Ascii.eqb_refl.
    + change (String c u ++ String sp X) with (String c (u ++ String sp X)) in H.
      cbn [prefix] in H. destruct (ascii_dec x c) as [-> | _]; [|discriminate].
      destruct (IH u H) as [[r ->] | Hf].
      * left. now exists r.
      * right. simpl. rewrite Hf. apply andb_false_r.
Qed.

(** A string without spaces that does not occur in [bt] is not found before
    the end of [bt] when a space follows. *)
Lemma indexFrom_skip_fresh (sub bt X : string) :
  allChars (fun c => negb (Ascii.eqb c " ")) sub = true ->
  ~ occursIn sub bt ->
  strings.indexFrom (bt ++ String " " X) sub =
  option_map (plus (String.length bt)) (strings.indexFrom (String " " X) sub).
Proof.
  intros Hsp. induction bt as [|c bt IH]; intros Hfresh.
  - simpl. now rewrite option_map_plus_0.
  - change (String c bt ++ String " " X) with (String c (bt ++ String " " X)).
    cbn [strings.indexFrom].
    destruct (prefix sub (String c (bt ++ String " " X))) eqn:E.
    + exfalso.
      destruct (prefix_across " " sub (String c bt) X E) as [[r Hr] | Hf].
      * apply Hfresh. exists "", r. exact Hr.
      * congruence.
    + rewrite IH; [apply option_map_S_plus|].
      intros (a & b & ->). apply Hfresh. now exists (String c a), b.
Qed.

Lemma indexFrom_here (sub rest : string) :
  sub <> "" -> strings.indexFrom (sub ++ rest) sub = Some 0%nat.
Proof.
  intros H. destruct sub as [|x sub]; [congruence|].
  change (String x sub ++ rest) with (String x (sub ++ rest)).
  cbn [strings.indexFrom].
  change (String x (sub ++ rest)) with (String x sub ++ rest).
  now rewrite prefix_append.
Qed.

Lemma indexFrom_None_Replace1 (s old new : string) :
  ~ occursIn old s -> strings.Replace1 s old new = s.
Proof.
  intros H. unfold strings.Replace1.
  destruct (strings.indexFrom s old) as [i|] eqn:E; [|reflexivity].
  exfalso. apply H. apply indexFrom_Some in E. destruct E as [_ E].
  eexists _, _. exact E.
Qed.

Lemma digit_char (P : ascii -> bool) :
  (forall d, (d < 10)%nat -> P (ascii_of_nat (48 + d)) = true) ->
  forall n, P (strconv.digit (n mod 10)) = true.
Proof.
  intros H n. unfold strconv.digit. apply H.
  pose proof (Z.mod_pos_bound n 10 ltac:(lia)). lia.
Qed.

Lemma allChars_digits (P : ascii -> bool) :
  (forall d, (d < 10)%nat -> P (ascii_of_nat (48 + d)) = true) ->
  forall (fuel : nat) (n : Z) (acc : string),
    allChars P acc = true -> allChars P (strconv.digits fuel n acc) = true.
Proof.
  intros H. induction fuel as [|fuel IH]; intros n acc Ha; [exact Ha|].
  cbn [strconv.digits].
  assert (Ha' : allChars P (String (strconv.digit (n mod 10)) acc) = true).
  { simpl. now rewrite (digit_char P H n), Ha. }
  destruct (n <? 10); [exact Ha' | now apply IH].
Qed.

Lemma allChars_Itoa (P : ascii -> bool) (n : Z) :
  (forall d, (d < 10)%nat -> P (ascii_of_nat (48 + d)) = true) ->
  P "-"%char = true ->
  allChars P (strconv.Itoa n) = true.
Proof.
  intros H Hm. unfold strconv.Itoa. destruct (n <? 0).
  - cbn [append allChars]. rewrite Hm. cbn [andb].
    now apply allChars_digits.
  - now apply allChars_digits.
Qed.

Lemma digits_not_lt (d : nat) :
  (d < 10)%nat -> negb (Ascii.eqb (ascii_of_nat (48 + d)) "<") = true.
Proof.
  intros H. do 10 (destruct d as [|d]; [reflexivity|]). lia.
Qed.

Lemma isHexDash_not_space (c : ascii) :
  isHexDash c = true -> negb (Ascii.eqb c " ") = true.
Proof.
  intros H. destruct (Ascii.eqb_spec c " ") as [-> | _]; [discriminate | reflexivity].
Qed.

Lemma token_no_space (uuid : string) :
  isUUIDText uuid = true ->
  allChars (fun c => negb (Ascii.eqb c " ")) ("<" ++ uuid ++ ">") = true.
Proof.
  intros H. apply andb_prop in H. destruct H as [_ H].
  cbn [append allChars]. cbn [Ascii.eqb Bool.eqb negb andb].
  rewrite allChars_append.
  rewrite (allChars_impl _ _ uuid isHexDash_not_space H). reflexivity.
Qed.

Lemma length_uuid (uuid : string) :
  isUUIDText uuid = true -> String.length uuid = 36%nat.
Proof.
  intros H. apply andb_prop in H. destruct H as [H _]. now apply Nat.eqb_eq.
Qed.

(** The final pass on a titled chunk replaces the placeholder of the title,
    and nothing else. *)
Lemma Replace1_title (uuid bt total rest : string) (k : Z) :
  isUUIDText uuid = true ->
  bt <> "" ->
  ~ occursIn ("<" ++ uuid ++ ">") bt ->
  strings.Replace1 (titleOf bt titleSuffixFmt ("<" ++ uuid ++ ">") k ++ rest)
    ("<" ++ uuid ++ ">") total =
  titleOf bt titleSuffixFmt total k ++ rest.
Proof.
  intros Hu Hbt Hfresh.
  set (tid := "<" ++ uuid ++ ">") in *.
  set (m := "(" ++ strconv.Itoa k ++ "/").
  set (tl := (")" ++ LF ++ LF) ++ rest).
  assert (Heq : forall t, titleOf bt titleSuffixFmt t k ++ rest =
                          bt ++ String " " (m ++ t ++ tl)).
  { intros t. rewrite titleOf_title by assumption. unfold m, tl.
    rewrite !append_assoc. reflexivity. }
  rewrite !Heq. unfold strings.Replace1.
  assert (Hidx : strings.indexFrom (bt ++ String " " (m ++ tid ++ tl)) tid =
                 Some (String.length bt + S (String.length m))%nat).
  { rewrite indexFrom_skip_fresh by (try apply token_no_space; assumption).
    assert (Hm : allChars (fun c => negb (Ascii.eqb c "<")) (String " " m) = true).
    { unfold m. cbn [append allChars]. cbn [Ascii.eqb Bool.eqb negb andb].
      rewrite allChars_append. cbn [allChars]. cbn [Ascii.eqb Bool.eqb negb andb].
      rewrite andb_true_r. apply allChars_Itoa; [apply digits_not_lt | reflexivity]. }
    pose proof (indexFrom_skip_chars "<" (uuid ++ ">") (String " " m) (tid ++ tl) Hm)
      as H1.
    assert (H3 : strings.indexFrom (tid ++ tl) (String "<" (uuid ++ ">")) = Some 0%nat)
      by (exact (indexFrom_here tid tl ltac:(discriminate))).
    rewrite H3 in H1.
    assert (H2 : strings.indexFrom (String " " (m ++ tid ++ tl)) tid =
                 Some (S (String.length m))).
    { etransitivity; [exact H1|]. simpl. f_equal. lia. }
    rewrite H2. reflexivity. }
  rewrite Hidx.
  replace (bt ++ String " " (m ++ tid ++ tl))
    with ((bt ++ String " " m) ++ tid ++ tl) at 1
    by (now rewrite !append_assoc).
  replace (String.length bt + S (String.length m))%nat
    with (String.length (bt ++ String " " m))
    by (rewrite length_append; reflexivity).
  rewrite take_append.
  replace (bt ++ String " " (m ++ tid ++ tl))
    with (((bt ++ String " " m) ++ tid) ++ tl)
    by (now rewrite !append_assoc).
  replace (String.length (bt ++ String " " m) + String.length tid)%nat
    with (String.length ((bt ++ String " " m) ++ tid))
    by (rewrite (length_append _ tid); reflexivity).
  rewrite drop_append. now rewrite !append_assoc.
Qed.

(** ** The output of the assembler, total filled in *)

Lemma body_app (g1 g2 : list chunk) : body (g1 ++ g2) = body g1 ++ body g2.
Proof. unfold body. now rewrite map_app, join_app. Qed.

Lemma body_in_concat (groups : list (list chunk)) (g : list chunk) :
  In g groups -> occursIn (body g) (body (List.concat groups)).
Proof.
  intros H. apply in_split in H. destruct H as (l1 & l2 & ->).
  rewrite concat_app. cbn [List.concat]. rewrite !body_app.
  now exists (body (List.concat l1)), (body (List.concat l2)).
Qed.

Lemma occursIn_trans (a b c : string) :
  occursIn a b -> occursIn b c -> occursIn a c.
Proof.
  intros (x & y & ->) (u & v & ->).
  exists (u ++ x), (y ++ v). now rewrite !append_assoc.
Qed.

Lemma mapFrom_ext_in {A B : Type} (f g : Z -> A -> B) (k : Z) (l : list A) :
  (forall j x, In x l -> f j x = g j x) -> mapFrom f k l = mapFrom g k l.
Proof.
  revert k. induction l as [|x l IH]; intros k H; [reflexivity|].
  cbn [mapFrom]. rewrite (H k x (or_introl eq_refl)), IH; [reflexivity|].
  intros j y Hy. apply H. now right.
Qed.

Lemma map_mapFrom {A B C : Type} (h : B -> C) (f : Z -> A -> B) (k : Z) (l : list A) :
  map h (mapFrom f k l) = mapFrom (fun j x => h (f j x)) k l.
Proof.
  revert k. induction l as [|x l IH]; intros k; [reflexivity|].
  cbn [mapFrom map]. now rewrite IH.
Qed.

(** What [chunksAsStr] returns when the placeholder is fresh: the pieces
    fall into consecutive non-empty groups, one per chunk, and chunk [k] of
    [N] is its title, with [k] and [N] in it, followed by the rendered pieces
    of its group. *)
Lemma chunksAsStr_final (uuid : string) (cs : list chunk) (max : Z) (bt : string) :
  isUUIDText uuid = true ->
  ~ occursIn ("<" ++ uuid ++ ">") bt ->
  (bt = "" -> ~ occursIn ("<" ++ uuid ++ ">") (body cs)) ->
  exists groups : list (list chunk),
    List.concat groups = cs /\
    Forall (fun g => g <> []) groups /\
    chunksAsStr uuid cs max bt titleSuffixFmt =
    mapFrom (fun k g =>
               titleOf bt titleSuffixFmt
                 (strconv.Itoa (Z.of_nat (List.length groups))) k ++ body g)
      1 groups.
Proof.
  intros Hu Hbt Hbody. unfold chunksAsStr. rewrite Sprintf_token.
  set (tid := "<" ++ uuid ++ ">") in *.
  destruct (chunksAsStr_loop_shape max bt titleSuffixFmt tid cs)
    as (groups & Hs & Hc & Hne & _).
  exists groups. split; [exact Hc|]. split; [exact Hne|].
  rewrite Hs, length_mapFrom, map_mapFrom.
  apply mapFrom_ext_in. intros k g Hg.
  destruct (String.eqb_spec bt "") as [-> | Hn].
  - rewrite !titleOf_empty. cbn [append].
    apply indexFrom_None_Replace1. intros Ho. apply (Hbody eq_refl).
    rewrite <- Hc. eapply occursIn_trans; [exact Ho|].
    now apply body_in_concat.
  - now apply Replace1_title.
Qed.

(** ** A document that opens with a heading *)

Lemma find_split {A : Type} (f : A -> bool) (l : list A) (x : A) :
  find f l = Some x ->
  exists pre post, l = (pre ++ x :: post)%list /\
                   Forall (fun y => f y = false) pre /\ f x = true.
Proof.
  induction l as [|y l IH]; [discriminate|]. cbn [find].
  destruct (f y) eqn:E.
  - intros H. injection H as ->. exists [], l. repeat split; [constructor | exact E].
  - intros H. destruct (IH H) as (pre & post & -> & Hpre & Hx).
    exists (y :: pre), post. repeat split; [constructor; assumption | exact Hx].
Qed.

Lemma visitor_no_literal (max : Z) (sep : string) (st : walkState) (ev : visit) :
  hasLiteral ev = false ->
  visitor max sep st ev = (st, GoToNext) \/
  exists st', visitor max sep st ev = (st', Terminate).
Proof.
  unfold hasLiteral, visitor. intros H.
  destruct (NodeType_eqb (Typ (node ev)) List); [right; eexists; reflexivity|].
  destruct (Literal (node ev)); [discriminate | left; reflexivity].
Qed.

(** Up to the first node with text the walk changes nothing, unless it
    stops there. *)
Lemma reach_no_literal (max : Z) (sep : string) (pre rest : list visit)
    (st : walkState) :
  Forall (fun ev => hasLiteral ev = false) pre ->
  reach (visitor max sep) pre st = Some st \/
  canSplit (runVisitor (visitor max sep) (pre ++ rest) st) = false.
Proof.
  induction 1 as [|ev pre Hev _ IH]; [left; reflexivity|].
  cbn [reach runVisitor app].
  destruct (visitor_no_literal max sep st ev Hev) as [-> | [st' Hst]].
  - exact IH.
  - rewrite Hst. right. eapply visitor_terminate. exact Hst.
Qed.

Lemma parentLoop_heading (st : walkState) (contents : string) (lvl : Z)
    (ps : list Node) :
  nearestHeading ps = Some lvl ->
  baseTitle st = "" -> chunks st = [] ->
  forall ws, exists st',
    parentLoop st contents ps ws = inl st' /\
    baseTitle st' = strings.Repeat "#" lvl ++ " " ++ contents.
Proof.
  intros Hh Hb Hc. induction ps as [|p ps IH]; [discriminate|].
  intros ws. cbn [nearestHeading parentLoop] in *.
  destruct (Typ p) eqn:Et; cbn [NodeType_eqb] in Hh; try (apply IH; exact Hh).
  injection Hh as <-. cbv zeta. rewrite Hb, Hc. cbn [String.eqb andb List.length Z.of_nat Z.eqb].
  eexists. split; [reflexivity|]. cbn [baseTitle]. apply Sprintf_title.
Qed.

Lemma visitor_baseTitle (max : Z) (sep : string) (st st' : walkState)
    (ev : visit) (s : WalkStatus) :
  baseTitle st <> "" -> visitor max sep st ev = (st', s) ->
  baseTitle st' = baseTitle st.
Proof.
  intros Hb. unfold visitor.
  destruct (NodeType_eqb (Typ (node ev)) List).
  { intros H. injection H as <- _. reflexivity. }
  destruct (Literal (node ev)) as [contents|].
  2:{ intros H. injection H as <- _. reflexivity. }
  destruct (parentLoop st contents (parents ev) []) as [st1|ws] eqn:E.
  - apply parentLoop_inl in E. destruct E as (_ & E & _). congruence.
  - destruct (nodeSwitch _ _ _ _) as [[c ws'] html].
    destruct (_ >=? max); intros H; injection H as <- _; reflexivity.
Qed.

Lemma runVisitor_baseTitle (max : Z) (sep : string) (evs : list visit)
    (st : walkState) :
  baseTitle st <> "" ->
  baseTitle (runVisitor (visitor max sep) evs st) = baseTitle st.
Proof.
  revert st. induction evs as [|ev evs IH]; intros st Hb; [reflexivity|].
  cbn [runVisitor]. destruct (visitor max sep st ev) as [st' [|]] eqn:E.
  - pose proof (visitor_baseTitle _ _ _ _ _ _ Hb E) as Hst.
    rewrite IH; [exact Hst | congruence].
  - eapply visitor_baseTitle; eassumption.
Qed.

(** The walk of a document that opens with a heading, when it does not
    fall back, ends with that heading as the base title. *)
Lemma Walk_leadingHeading (max : Z) (sep : string) (root : Node) (lvl : Z)
    (contents : string) :
  leadingHeading root = Some (lvl, contents) ->
  canSplit (Walk (visitor max sep) root initState) = true ->
  baseTitle (Walk (visitor max sep) root initState) =
  strings.Repeat "#" lvl ++ " " ++ contents.
Proof.
  unfold leadingHeading, Walk. intros Hl Hcs.
  destruct (find hasLiteral (walkEvents [] root)) as [ev|] eqn:Ef; [|discriminate].
  destruct (Literal (node ev)) as [c|] eqn:Elit; [|discriminate].
  destruct (nearestHeading (parents ev)) as [l|] eqn:Eh; [|discriminate].
  injection Hl as -> ->.
  destruct (find_split _ _ _ Ef) as (pre & post & Hev & Hpre & _).
  rewrite Hev in *.
  destruct (reach_no_literal max sep pre (ev :: post) initState Hpre) as [Hr | Hf];
    [|congruence].
  rewrite (runVisitor_app _ _ _ _ _ Hr) in *.
  cbn [runVisitor] in *.
  destruct (parentLoop_heading initState contents lvl (parents ev) Eh eq_refl eq_refl [])
    as (st' & Hp & Hb).
  assert (Hv : visitor max sep initState ev = (st', GoToNext) \/
               exists st1, visitor max sep initState ev = (st1, Terminate)).
  { unfold visitor. destruct (NodeType_eqb (Typ (node ev)) List).
    - right. eexists. reflexivity.
    - rewrite Elit, Hp. left. reflexivity. }
  destruct Hv as [Hv | [st1 Hv]]; rewrite Hv in *.
  - rewrite runVisitor_baseTitle; [exact Hb|].
    rewrite Hb. apply title_not_empty.
  - apply visitor_terminate in Hv. congruence.
Qed.

Lemma indexFrom_None (sub s : string) :
  strings.indexFrom s sub = None -> ~ occursIn sub s.
Proof.
  intros H (a & b & ->). destruct (indexFrom_occurs a sub b) as (i & Hi & _).
  congruence.
Qed.

Lemma map_renderChunk_nest (g : list chunk) :
  body g = join (map (fun p => nest (wrappers p) (content p)) g).
Proof.
  unfold body. f_equal. apply map_ext. exact renderChunk_nest.
Qed.

(** ** Pagination *)

(** C2.  When a document that opens with a heading is longer than [max]
    and the markdown-aware split succeeds with [N] chunks, chunk [i] (from 1
    to [N], in output order) begins with the base heading text followed by
    [" (i/N)"] and two line feeds, [N] in decimal having taken the place of
    the placeholder token, which is fresh for the heading. *)
Theorem C2_pagination_numbering (parse : string -> Node) (uuid text : string)
    (max : Z) (sep : string) (level : Z) (contents : string)
    (out : list string) :
  isUUIDText uuid = true ->
  leadingHeading (parse text) = Some (level, contents) ->
  let base := strings.Repeat "#" level ++ " " ++ contents in
  ~ occursIn ("<" ++ uuid ++ ">") base ->
  len text > max ->
  MarkdownSplit parse uuid text max sep = (out, true) ->
  forall i : nat,
    (i < List.length out)%nat ->
    exists rest,
      nth i out "" =
      base ++ " (" ++ strconv.Itoa (1 + Z.of_nat i) ++ "/" ++
      strconv.Itoa (Z.of_nat (List.length out)) ++ ")" ++ LF ++ LF ++ rest.
Proof.
  intros Hu Hl base Hfresh Hlen Hout i Hi. unfold MarkdownSplit in Hout.
  destruct (Z.leb_spec max (len sep)) as [Hsep | Hsep].
  { unfold MarkdownSplitNode in Hout.
    replace (len text <=? max) with false in Hout
      by (symmetry; apply Z.leb_gt; lia).
    rewrite (proj2 (Z.leb_le _ _) Hsep) in Hout. discriminate. }
  rewrite MarkdownSplitNode_walks in Hout by lia. cbv zeta in Hout.
  destruct (canSplit (Walk (visitor max sep) (parse text) initState)) eqn:Ec;
    cbn [negb] in Hout; [|discriminate].
  injection Hout as Hout.
  rewrite (Walk_leadingHeading max sep (parse text) level contents Hl Ec) in Hout.
  fold base in Hout.
  assert (Hne : base <> "") by apply title_not_empty.
  destruct (chunksAsStr_final uuid
              (chunks (Walk (visitor max sep) (parse text) initState)) max base
              Hu Hfresh ltac:(congruence))
    as (groups & _ & _ & Hshape).
  rewrite Hshape in Hout. subst out. rewrite length_mapFrom in *.
  rewrite (nth_mapFrom _ _ _ _ _ [] Hi).
  exists (body (nth i groups [])).
  rewrite titleOf_title by assumption. now rewrite !append_assoc.
Qed.

Lemma C2_witness :
  exists rest,
    nth 1 (fst (MarkdownSplit (fun _ => titledDoc) uuid0 titledText 55 "")) "" =
    "### Comment with title (2/3)" ++ LF ++ LF ++ rest.
Proof.
  destruct (C2_pagination_numbering (fun _ => titledDoc) uuid0 titledText 55 ""
              3 "Comment with title"
              (fst (MarkdownSplit (fun _ => titledDoc) uuid0 titledText 55 "")))
    with (i := 1%nat) as [rest Hrest].
  - vm_compute. reflexivity.
  - vm_compute. reflexivity.
  - apply indexFrom_None. vm_compute. reflexivity.
  - vm_compute. reflexivity.
  - vm_compute. reflexivity.
  - vm_compute. lia.
  - exists rest. rewrite Hrest. vm_compute. reflexivity.
Defined.

(** ** Wrappers stay within their chunk *)

(** C3.  When [MarkdownSplit] succeeds, either the text fitted and is
    returned as it is, or the pieces of the walk fall into consecutive
    groups, one per output chunk, and every chunk is its pagination title
    (if any) followed by the pieces of its group, each piece being its
    content nested in all its wrappers: every wrapper applied to a piece
    opens and closes inside the chunk of that piece.  The placeholder token
    is fresh for the base title and for the rendered pieces. *)
Theorem C3_wrappers_closed_within_chunk (parse : string -> Node)
    (uuid text : string) (max : Z) (sep : string) (out : list string) :
  isUUIDText uuid = true ->
  MarkdownSplit parse uuid text max sep = (out, true) ->
  let st := Walk (visitor max sep) (parse text) initState in
  ~ occursIn ("<" ++ uuid ++ ">") (baseTitle st) ->
  ~ occursIn ("<" ++ uuid ++ ">") (body (chunks st)) ->
  len text <= max /\ out = [text] \/
  exists groups : list (list chunk),
    List.concat groups = chunks st /\
    List.length groups = List.length out /\
    forall i : nat,
      (i < List.length out)%nat ->
      nth i groups [] <> [] /\
      nth i out "" =
      titleOf (baseTitle st) titleSuffixFmt
        (strconv.Itoa (Z.of_nat (List.length out))) (1 + Z.of_nat i) ++
      join (map (fun p => nest (wrappers p) (content p)) (nth i groups [])).
Proof.
  intros Hu Hout st Hbt Hbody. unfold MarkdownSplit in Hout.
  destruct (Z.leb_spec (len text) max) as [Hle | Hgt].
  { left. rewrite MarkdownSplitNode_fits_already in Hout by assumption.
    injection Hout as <-. split; [assumption | reflexivity]. }
  right.
  destruct (Z.leb_spec max (len sep)) as [Hsep | Hsep].
  { unfold MarkdownSplitNode in Hout.
    replace (len text <=? max) with false in Hout
      by (symmetry; apply Z.leb_gt; lia).
    rewrite (proj2 (Z.leb_le _ _) Hsep) in Hout. discriminate. }
  rewrite MarkdownSplitNode_walks in Hout by lia. cbv zeta in Hout.
  fold st in Hout.
  destruct (canSplit st); cbn [negb] in Hout; [|discriminate].
  injection Hout as Hout.
  destruct (chunksAsStr_final uuid (chunks st) max (baseTitle st) Hu Hbt
              (fun _ => Hbody))
    as (groups & Hc & Hne & Hshape).
  rewrite Hshape in Hout. subst out. rewrite length_mapFrom.
  exists groups. split; [exact Hc|]. split; [reflexivity|].
  intros i Hi. split.
  - rewrite Forall_forall in Hne. apply Hne. now apply nth_In.
  - rewrite (nth_mapFrom _ _ _ _ _ [] Hi). now rewrite map_renderChunk_nest.
Qed.

Lemma C3_witness :
  len htmlText <= 60 /\
  fst (MarkdownSplit (fun _ => htmlDoc) uuid0 htmlText 60 "") = [htmlText] \/
  exists groups : list (list chunk),
    List.concat groups = chunks (Walk (visitor 60 "") htmlDoc initState) /\
    List.length groups =
    List.length (fst (MarkdownSplit (fun _ => htmlDoc) uuid0 htmlText 60 "")) /\
    forall i : nat,
      (i < List.length (fst (MarkdownSplit (fun _ => htmlDoc) uuid0 htmlText 60 "")))%nat ->
      nth i groups [] <> [] /\
      nth i (fst (MarkdownSplit (fun _ => htmlDoc) uuid0 htmlText 60 "")) "" =
      titleOf (baseTitle (Walk (visitor 60 "") htmlDoc initState)) titleSuffixFmt
        (strconv.Itoa
           (Z.of_nat
              (List.length
                 (fst (MarkdownSplit (fun _ => htmlDoc) uuid0 htmlText 60 "")))))
        (1 + Z.of_nat i) ++
      join (map (fun p => nest (wrappers p) (content p)) (nth i groups [])).
Proof.
  apply (C3_wrappers_closed_within_chunk (fun _ => htmlDoc) uuid0 htmlText 60 ""
           (fst (MarkdownSplit (fun _ => htmlDoc) uuid0 htmlText 60 ""))).
  - vm_compute. reflexivity.
  - vm_compute. reflexivity.
  - apply indexFrom_None. vm_compute. reflexivity.
  - apply indexFrom_None. vm_compute. reflexivity.
Defined.

(** ** Remarks on the embedding *)

(** The fuel [Itoa] gives [digits] is enough. *)
Lemma Itoa_fuel (n : Z) (fuel : nat) :
  0 <= n -> n < 2 ^ Z.of_nat fuel -> (1 <= fuel)%nat ->
  strconv.digits fuel n "" = strconv.Itoa n.
Proof.
  intros Hn Hf H1. unfold strconv.Itoa.
  replace (n <? 0) with false by (symmetry; apply Z.ltb_ge; lia).
  apply digits_fuel; try lia.
  destruct (Z.eq_dec n 0) as [-> | Hnz]; [reflexivity|].
  pose proof (Z.log2_nonneg n).
  replace (Z.of_nat (S (Z.to_nat (Z.log2 n)))) with (Z.succ (Z.log2 n)) by lia.
  apply Z.log2_spec. lia.
Qed.

(** The wrapper of a code span: the fence with the first line of the
    literal behind it, and the closing fence. *)
Lemma nodeSwitch_Code (contents : string) (ws html : list wrapper) :
  exists contents',
    nodeSwitch Code contents ws html =
    (contents',
     (ws ++ [mkWrapper
               (if negb (strings.Index contents LF =? -1)
                then "```" ++ slice contents 0 (strings.Index contents LF + 1)
                else "```" ++ LF)
               (LF ++ "```")])%list,
     html).
Proof.
  cbn [nodeSwitch]. destruct (negb (strings.Index contents LF =? -1));
    eexists; reflexivity.
Qed.

(** * Further properties of the code *)

(** ** The two entry points on a text that fits *)

(** X1. A text that fits [max] is returned whole by both entry points,
    [MarkdownSplit] reporting success without looking at the parsed tree;
    [SplitGithubComment] does so up to 65536 bytes. *)
Theorem X1_fitting_text_returned_whole (parse : string -> Node)
    (uuid text : string) (max : Z) (sep : string) :
  len text <= max ->
  MarkdownSplit parse uuid text max sep = ([text], true) /\
  SimpleSplit text max sep = [text] /\
  (max = MaxGithubCommentSize ->
   SplitGithubComment parse uuid text sep = ([text], true)).
Proof.
  intros H. split; [|split].
  - apply MarkdownSplitNode_fits_already. exact H.
  - unfold SimpleSplit. now rewrite (proj2 (Z.leb_le _ _) H).
  - intros ->. apply MarkdownSplitNode_fits_already. exact H.
Qed.

Lemma X1_witness :
  MarkdownSplit (fun _ => listDoc) uuid0 listText 100 "--" = ([listText], true) /\
  SimpleSplit listText 100 "--" = [listText] /\
  (100 = MaxGithubCommentSize ->
   SplitGithubComment (fun _ => listDoc) uuid0 listText "--" = ([listText], true)).
Proof.
  apply (X1_fitting_text_returned_whole (fun _ => listDoc) uuid0 listText 100 "--").
  vm_compute. discriminate.
Defined.

(** ** The fallback splitter, whatever its arguments *)

(** X2. Every chunk [SimpleSplit] returns is at most [max] bytes long, for
    every text, [max] and separator. *)
Theorem X2_SimpleSplit_chunks_within_max (text : string) (max : Z) (sep : string) :
  Forall (fun c => len c <= max) (SimpleSplit text max sep).
Proof. apply SimpleSplit_fits. Qed.

(** X3. With the empty separator and a positive [max], the chunks of
    [SimpleSplit], put together in order, are the text. *)
Theorem X3_SimpleSplit_empty_separator_round_trip (text : string) (max : Z) :
  0 < max -> join (SimpleSplit text max "") = text.
Proof.
  intros Hmax. destruct (Z.leb_spec (len text) max) as [Hle | Hgt].
  - unfold SimpleSplit. rewrite (proj2 (Z.leb_le _ _) Hle). simpl.
    apply append_nil_r.
  - destruct (SimpleSplit_pieces text max "") as (Hpos & Hn & Hjoin & _ & _ & ->);
      [lia | change (len "") with 0; lia |].
    set (pieces := cut _ _ text) in *.
    rewrite (map_ext _ (fun p => p) append_nil_r), map_id.
    assert (Hne : pieces <> []).
    { intros E. rewrite E in Hn. cbn [List.length Z.of_nat] in Hn. lia. }
    rewrite <- (app_removelast_last "" Hne). exact Hjoin.
Qed.

Lemma X3_witness :
  join (SimpleSplit "Some basic comment" 10 "") = "Some basic comment".
Proof.
  apply (X3_SimpleSplit_empty_separator_round_trip "Some basic comment" 10).
  reflexivity.
Defined.

(** X4. On the splitting path [SimpleSplit] returns exactly
    [ceil(len text / (max - len sep))] chunks, at least two, none of them
    empty. *)
Theorem X4_SimpleSplit_chunk_count (text : string) (max : Z) (sep : string) :
  len text > max -> max > len sep ->
  let out := SimpleSplit text max sep in
  Z.of_nat (List.length out) = ceilDiv (len text) (max - len sep) /\
  2 <= Z.of_nat (List.length out) /\
  Forall (fun c => c <> "") out.
Proof.
  intros Hlen Hsep out. pose proof (len_nonneg sep) as Hs.
  destruct (SimpleSplit_pieces text max sep Hlen Hsep)
    as (Hpos & Hn & _ & Hall & Hlast & Hout).
  pose proof (ceilDiv_bounds (len text) (max - len sep) ltac:(lia)) as HN.
  set (N := ceilDiv (len text) (max - len sep)) in *.
  set (pieces := cut (Z.to_nat N) (Z.to_nat (max - len sep)) text) in *.
  assert (Hne : pieces <> []).
  { intros E. rewrite E in Hn. simpl in Hn. lia. }
  assert (Hcount : Z.of_nat (List.length out) = N).
  { unfold out. rewrite Hout, length_app, length_map. cbn [List.length].
    rewrite <- Hn. rewrite (app_removelast_last "" Hne) at 2.
    rewrite length_app. reflexivity. }
  split; [exact Hcount|]. split; [rewrite Hcount; nia|].
  unfold out. rewrite Hout. apply Forall_app. split.
  - apply Forall_forall. intros c Hc. apply in_map_iff in Hc.
    destruct Hc as (p & <- & Hp). rewrite Forall_forall in Hall.
    specialize (Hall p Hp). cbv beta in Hall. intros E.
    apply (f_equal len) in E. rewrite len_append in E.
    change (len "") with 0 in E. lia.
  - constructor; [|constructor]. intros E. rewrite E in Hlast.
    change (len "") with 0 in Hlast. lia.
Qed.

Lemma X4_witness :
  Z.of_nat (List.length (SimpleSplit htmlText 30 "")) =
  ceilDiv (len htmlText) (30 - len "") /\
  2 <= Z.of_nat (List.length (SimpleSplit htmlText 30 "")) /\
  Forall (fun c => c <> "") (SimpleSplit htmlText 30 "").
Proof.
  apply (X4_SimpleSplit_chunk_count htmlText 30 "").
  - vm_compute. reflexivity.
  - vm_compute. reflexivity.
Defined.

(** X5. No slice [SimpleSplit] takes is out of range: in each round
    [i < numChunks] of its loop, [0 <= i*maxSize <= upTo <= len text]. *)
Theorem X5_SimpleSplit_slices_in_range (text : string) (max : Z) (sep : string)
    (i : Z) :
  len text > max -> max > len sep ->
  let maxSize := max - len sep in
  let numChunks := ceilDiv (len text) maxSize in
  0 <= i < numChunks ->
  let upTo := min (len text) ((i + 1) * maxSize) in
  0 <= i * maxSize /\ i * maxSize < upTo /\ upTo <= len text.
Proof.
  intros Hlen Hsep maxSize numChunks Hi upTo. pose proof (len_nonneg sep) as Hs.
  pose proof (ceilDiv_bounds (len text) maxSize ltac:(unfold maxSize; lia)) as HN.
  fold numChunks in HN. unfold upTo, min.
  assert (0 < maxSize) by (unfold maxSize; lia).
  destruct (Z.ltb_spec (len text) ((i + 1) * maxSize)); nia.
Qed.

Lemma X5_witness :
  0 <= 1 * (10 - len "") /\
  1 * (10 - len "") < min (len "Some basic comment") ((1 + 1) * (10 - len "")) /\
  min (len "Some basic comment") ((1 + 1) * (10 - len "")) <=
  len "Some basic comment".
Proof.
  apply (X5_SimpleSplit_slices_in_range "Some basic comment" 10 "" 1).
  - vm_compute. reflexivity.
  - vm_compute. reflexivity.
  - vm_compute. split; [discriminate | reflexivity].
Defined.

(** ** The cutter *)

(** X6. For a positive [chunkLen], [buildChunks] cuts without loss: the
    contents of its pieces, in order, make up [contents]; every piece is
    non-empty, at most [chunkLen] bytes long, and carries the wrappers
    passed in. *)
Theorem X6_buildChunks_lossless (contents : string) (chunkLen : Z)
    (ws : list wrapper) :
  1 <= chunkLen ->
  join (map content (buildChunks contents chunkLen ws)) = contents /\
  Forall (fun p => wrappers p = ws /\ 0 < len (content p) <= chunkLen)
    (buildChunks contents chunkLen ws).
Proof. apply buildChunks_spec. Qed.

Lemma X6_witness :
  join (map content (buildChunks "properly" 3 [mkWrapper "_" "_"])) = "properly" /\
  Forall (fun p => wrappers p = [mkWrapper "_" "_"] /\ 0 < len (content p) <= 3)
    (buildChunks "properly" 3 [mkWrapper "_" "_"]).
Proof.
  apply (X6_buildChunks_lossless "properly" 3 [mkWrapper "_" "_"]).
  vm_compute. discriminate.
Defined.

Lemma ceilDiv_unique (a b N : Z) :
  0 < b -> (N - 1) * b < a <= N * b -> ceilDiv a b = N.
Proof.
  intros Hb HN. pose proof (ceilDiv_bounds a b Hb). nia.
Qed.

Lemma length_buildChunks_loop (chunkLen : Z) (ws : list wrapper) :
  1 <= chunkLen ->
  forall (fuel : nat) (contents : string),
    (String.length contents <= fuel)%nat ->
    Z.of_nat (List.length (buildChunks_loop fuel contents chunkLen ws)) =
    ceilDiv (len contents) chunkLen.
Proof.
  intros Hc. induction fuel as [|fuel IH]; intros contents Hf.
  - destruct contents; [|simpl in Hf; lia].
    cbn [buildChunks_loop List.length Z.of_nat].
    symmetry. apply ceilDiv_unique; [lia|]. change (len "") with 0. lia.
  - cbn [buildChunks_loop].
    destruct ((contents =? "")%string) eqn:Ee.
    { apply String.eqb_eq in Ee. subst.
      symmetry. apply ceilDiv_unique; [lia|]. change (len "") with 0.
      cbn [List.length Z.of_nat]. lia. }
    apply eqb_empty_len in Ee.
    destruct (Z.leb_spec (len contents) chunkLen) as [Hle | Hgt].
    { symmetry. apply ceilDiv_unique; [lia|]. cbn [List.length Z.of_nat]. lia. }
    rewrite slice_to_end by lia. cbn [List.length].
    rewrite Nat2Z.inj_succ, IH by (rewrite length_drop; unfold len in *; lia).
    assert (Hd : len (drop (Z.to_nat chunkLen) contents) = len contents - chunkLen).
    { unfold len in *. rewrite length_drop. lia. }
    rewrite Hd.
    pose proof (ceilDiv_bounds (len contents - chunkLen) chunkLen ltac:(lia)).
    symmetry. apply ceilDiv_unique; [lia | nia].
Qed.

(** X7. For a positive [chunkLen], [buildChunks] returns
    [ceil(len contents / chunkLen)] pieces, none for the empty string, and
    its loop ends by itself: giving it more rounds changes nothing. *)
Theorem X7_buildChunks_count (contents : string) (chunkLen : Z)
    (ws : list wrapper) :
  1 <= chunkLen ->
  Z.of_nat (List.length (buildChunks contents chunkLen ws)) =
  ceilDiv (len contents) chunkLen /\
  (contents = "" -> buildChunks contents chunkLen ws = []) /\
  forall fuel : nat,
    (String.length contents <= fuel)%nat ->
    buildChunks_loop fuel contents chunkLen ws = buildChunks contents chunkLen ws.
Proof.
  intros Hc. split; [|split].
  - now apply length_buildChunks_loop.
  - intros ->. reflexivity.
  - intros fuel Hf. now apply buildChunks_loop_fuel.
Qed.

Lemma X7_witness :
  Z.of_nat (List.length (buildChunks "properly" 3 [])) = ceilDiv (len "properly") 3 /\
  ("properly" = "" -> buildChunks "properly" 3 [] = []) /\
  forall fuel : nat,
    (String.length "properly" <= fuel)%nat ->
    buildChunks_loop fuel "properly" 3 [] = buildChunks "properly" 3 [].
Proof.
  apply (X7_buildChunks_count "properly" 3 []).
  vm_compute. discriminate.
Defined.

(** ** Rendering a piece *)

(** X8. The string [chunksAsStr] builds for a piece is its content nested
    in its wrappers, the first wrapper innermost and the last outermost,
    and its length is the content's plus that of every [begin] and [end]. *)
Theorem X8_renderChunk_nests_wrappers (c : chunk) :
  renderChunk c = nest (wrappers c) (content c) /\
  len (renderChunk c) = wrappersLen (wrappers c) + len (content c) /\
  forall (w : wrapper) (ws : list wrapper) (s : string),
    renderChunk (mkChunk s (ws ++ [w])) =
    begin w ++ renderChunk (mkChunk s ws) ++ end_ w.
Proof.
  split; [apply renderChunk_nest|]. split; [apply len_renderChunk|].
  intros w ws s. rewrite !renderChunk_nest. cbn [wrappers content].
  unfold nest. rewrite fold_left_app. reflexivity.
Qed.

(** ** The stack of open HTML tags *)

Lemma prefix_nil (s : string) : prefix "" s = true.
Proof. destruct s; reflexivity. Qed.

(** X9. An opening tag pushes its pair on the stack of open tags and
    leaves no text; the closing tag made from it, met next, pops that pair
    and leaves no text either: the stack is as before the two. *)
Theorem X9_html_tag_push_then_pop (rest : string) (ws html : list wrapper) :
  strings.HasPrefix rest "/" = false ->
  let open := "<" ++ rest in
  let close := "</" ++ rest in
  getHTMLClosingTag open = close /\
  nodeSwitch HTMLSpan open ws html =
  ("", ws, (html ++ [mkWrapper open close])%list) /\
  nodeSwitch HTMLSpan close ws (html ++ [mkWrapper open close])%list =
  ("", ws, html).
Proof.
  intros Hr open close.
  assert (Hclose : getHTMLClosingTag open = close).
  { unfold getHTMLClosingTag, strings.Replace1, open.
    change ("<" ++ rest) with (String "<" rest).
    cbn [strings.indexFrom prefix].
    destruct (ascii_dec "<" "<") as [_ | Hn]; [|congruence].
    rewrite prefix_nil. reflexivity. }
  assert (Hopen : isHTMLOpeningTag open = true).
  { unfold isHTMLOpeningTag, strings.HasPrefix, open.
    change ("<" ++ rest) with (String "<" rest). cbn [prefix].
    destruct (ascii_dec "<" "<") as [_ | Hn]; [|congruence].
    unfold strings.HasPrefix in Hr. now rewrite Hr. }
  assert (Hnot : isHTMLOpeningTag close = false).
  { unfold isHTMLOpeningTag, strings.HasPrefix, close.
    change ("</" ++ rest) with (String "<" (String "/" rest)). cbn [prefix].
    destruct (ascii_dec "<" "<") as [_ | Hn]; [|congruence].
    destruct (ascii_dec "/" "/") as [_ | Hn]; [|congruence].
    now rewrite prefix_nil. }
  split; [exact Hclose|]. split.
  - cbn [nodeSwitch]. now rewrite Hopen, Hclose.
  - cbn [nodeSwitch]. rewrite Hnot, last_last, removelast_last, length_app.
    cbn [List.length end_]. rewrite String.eqb_refl.
    replace (0 <? Z.of_nat (List.length html + 1)) with true
      by (symmetry; apply Z.ltb_lt; lia).
    reflexivity.
Qed.

Lemma X9_witness :
  getHTMLClosingTag ("<" ++ "tag1>") = "</" ++ "tag1>" /\
  nodeSwitch HTMLSpan ("<" ++ "tag1>") [] [] =
  ("", [], ([] ++ [mkWrapper ("<" ++ "tag1>") ("</" ++ "tag1>")])%list) /\
  nodeSwitch HTMLSpan ("</" ++ "tag1>") []
    ([] ++ [mkWrapper ("<" ++ "tag1>") ("</" ++ "tag1>")])%list =
  ("", [], []).
Proof.
  apply (X9_html_tag_push_then_pop "tag1>" [] []).
  vm_compute. reflexivity.
Defined.

(** ** What the walk keeps *)

Lemma visitor_chunks (max : Z) (sep : string) (st st' : walkState) (ev : visit)
    (s : WalkStatus) :
  visitor max sep st ev = (st', s) ->
  exists more,
    chunks st' = (chunks st ++ more)%list /\
    Forall (fun c => content c <> "") more.
Proof.
  unfold visitor. destruct (NodeType_eqb (Typ (node ev)) List).
  { intros H. injection H as <- _. exists []. now rewrite app_nil_r. }
  destruct (Literal (node ev)) as [contents|].
  2:{ intros H. injection H as <- _. exists []. now rewrite app_nil_r. }
  destruct (parentLoop st contents (parents ev) []) as [st1|ws] eqn:E.
  - intros H. injection H as <- _. apply parentLoop_inl in E.
    destruct E as (-> & _ & -> & _). now exists [].
  - destruct (nodeSwitch _ _ _ _) as [[c ws'] html].
    destruct (Z.geb_spec (wrappersLen (ws' ++ html) + titleLen st + len sep) max)
      as [Hge | Hlt]; intros H; injection H as <- _.
    + exists []. now rewrite app_nil_r.
    + eexists. split; [reflexivity|].
      destruct (buildChunks_spec c
                  (max - (wrappersLen (ws' ++ html) + titleLen st + len sep))
                  (ws' ++ html)) as [_ Ha]; [lia|].
      eapply Forall_impl; [|exact Ha]. intros p [_ Hl] E0.
      rewrite E0 in Hl. change (len "") with 0 in Hl. lia.
Qed.

Lemma runVisitor_chunks (max : Z) (sep : string) (evs : list visit)
    (st : walkState) :
  exists more,
    chunks (runVisitor (visitor max sep) evs st) = (chunks st ++ more)%list /\
    Forall (fun c => content c <> "") more.
Proof.
  revert st. induction evs as [|ev evs IH]; intros st.
  - exists []. now rewrite app_nil_r.
  - cbn [runVisitor]. destruct (visitor max sep st ev) as [st' [|]] eqn:E;
      destruct (visitor_chunks _ _ _ _ _ _ E) as (m1 & H1 & F1).
    + destruct (IH st') as (m2 & H2 & F2). exists (m1 ++ m2)%list.
      rewrite H2, H1, app_assoc. split; [reflexivity | now apply Forall_app].
    + now exists m1.
Qed.

Lemma walk_pieces_fit_budget (max : Z) (sep : string) (root : Node) :
  let st := Walk (visitor max sep) root initState in
  (baseTitle st = "" /\ titleLen st = 0 \/
   baseTitle st <> "" /\ titleLen st = len (baseTitle st) + 20) /\
  Forall (fun c => content c <> "" /\
                   len (renderChunk c) + titleLen st + len sep <= max)
    (chunks st).
Proof.
  intros st.
  pose proof (runVisitor_inv max sep (walkEvents [] root) initState
                (initState_inv max sep)) as [Ht Hp].
  destruct (runVisitor_chunks max sep (walkEvents [] root) initState)
    as (more & Hm & Hne).
  fold (Walk (visitor max sep) root initState) in Ht, Hp, Hm. fold st in Ht, Hp, Hm.
  split; [exact Ht|]. cbn [chunks initState app] in Hm. rewrite Hm in *.
  rewrite Forall_forall in *. intros c Hc. split; [now apply Hne | now apply Hp].
Qed.


(** X10. Every piece the walk collects is non-empty and leaves room for
    the reserved title length and the separator: rendered with its
    wrappers it takes at most [max - titleLen - len sep] bytes; and
    [titleLen] is 0 without a base title, [len baseTitle + 20] with one. *)
Theorem X10_walk_pieces_fit_budget (max : Z) (sep : string) (root : Node) :
  let st := Walk (visitor max sep) root initState in
  (baseTitle st = "" /\ titleLen st = 0 \/
   baseTitle st <> "" /\ titleLen st = len (baseTitle st) + 20) /\
  Forall (fun c => content c <> "" /\
                   len (renderChunk c) + titleLen st + len sep <= max)
    (chunks st).
Proof. apply walk_pieces_fit_budget. Qed.

(** X11. The walk only appends pieces: the pieces a state holds are still
    there, in place and unchanged, whatever calls follow. *)
Theorem X11_walk_only_appends_pieces (max : Z) (sep : string)
    (evs : list visit) (st : walkState) :
  exists more,
    chunks (runVisitor (visitor max sep) evs st) = (chunks st ++ more)%list.
Proof.
  destruct (runVisitor_chunks max sep evs st) as (more & H & _). now exists more.
Qed.




(** ** The result of [MarkdownSplit] *)

(** X13. Whenever [MarkdownSplit] reports failure, its chunks are those of
    [SimpleSplit] on the same arguments. *)
Theorem X13_failure_returns_SimpleSplit (parse : string -> Node)
    (uuid text : string) (max : Z) (sep : string) :
  snd (MarkdownSplit parse uuid text max sep) = false ->
  fst (MarkdownSplit parse uuid text max sep) = SimpleSplit text max sep.
Proof.
  unfold MarkdownSplit, MarkdownSplitNode, SimpleSplit.
  destruct (len text <=? max); [discriminate|].
  destruct (max <=? len sep); [reflexivity|].
  destruct (canSplit _); [discriminate | reflexivity].
Qed.

Lemma X13_witness :
  fst (MarkdownSplit (fun _ => htmlDoc) uuid0 htmlText 30 "") =
  SimpleSplit htmlText 30 "".
Proof.
  apply (X13_failure_returns_SimpleSplit (fun _ => htmlDoc) uuid0 htmlText 30 "").
  vm_compute. reflexivity.
Defined.



(** ** The assembler without a title *)

Lemma token_not_in_empty (uuid : string) : ~ occursIn ("<" ++ uuid ++ ">") "".
Proof.
  intros (a & b & E). apply (f_equal String.length) in E.
  rewrite !length_append in E. simpl in E. lia.
Qed.

Lemma join_mapFrom_body (groups : list (list chunk)) (k : Z) (total : string) :
  join (mapFrom (fun j g => titleOf "" titleSuffixFmt total j ++ body g) k groups) =
  body (List.concat groups).
Proof.
  revert k. induction groups as [|g groups IH]; intros k; [reflexivity|].
  cbn [mapFrom join fold_right List.concat].
  fold (join (mapFrom (fun j g => titleOf "" titleSuffixFmt total j ++ body g)
                (k + 1) groups)).
  rewrite IH, body_app. reflexivity.
Qed.

Lemma length_concat_nonempty {A : Type} (groups : list (list A)) :
  Forall (fun g => g <> []) groups ->
  (List.length groups <= List.length (List.concat groups))%nat.
Proof.
  induction 1 as [|g groups Hg _ IH]; [reflexivity|].
  cbn [List.concat List.length]. rewrite length_app.
  destruct g; [congruence | simpl; lia].
Qed.

Lemma chunksAsStr_keeps_every_piece (uuid : string) (cs : list chunk)
    (max : Z) (bt : string) :
  isUUIDText uuid = true ->
  ~ occursIn ("<" ++ uuid ++ ">") bt ->
  ~ occursIn ("<" ++ uuid ++ ">") (body cs) ->
  let out := chunksAsStr uuid cs max bt titleSuffixFmt in
  (List.length out <= List.length cs)%nat /\
  (cs <> [] -> out <> []) /\
  (bt = "" -> join out = body cs).
Proof.
  intros Hu Hbt Hbody out.
  destruct (chunksAsStr_final uuid cs max bt Hu Hbt (fun _ => Hbody))
    as (groups & Hc & Hne & Hshape).
  unfold out. rewrite Hshape. split; [|split].
  - rewrite length_mapFrom, <- Hc. now apply length_concat_nonempty.
  - intros Hcs E. apply (f_equal (@List.length string)) in E.
    rewrite length_mapFrom in E. destruct groups; [|discriminate].
    simpl in Hc. congruence.
  - intros ->. rewrite join_mapFrom_body. now rewrite Hc.
Qed.

(** X15. With a fresh placeholder, [chunksAsStr] returns at most as many
    chunks as there are pieces, and some chunk when there is a piece; and
    without a base title the chunks, put together in order, are the
    rendered pieces put together: assembling loses and adds nothing. *)
Theorem X15_chunksAsStr_keeps_every_piece (uuid : string) (cs : list chunk)
    (max : Z) (bt : string) :
  isUUIDText uuid = true ->
  ~ occursIn ("<" ++ uuid ++ ">") bt ->
  ~ occursIn ("<" ++ uuid ++ ">") (body cs) ->
  let out := chunksAsStr uuid cs max bt titleSuffixFmt in
  (List.length out <= List.length cs)%nat /\
  (cs <> [] -> out <> []) /\
  (bt = "" -> join out = body cs).
Proof. apply chunksAsStr_keeps_every_piece. Qed.

Lemma X15_witness :
  (List.length (chunksAsStr uuid0 (buildChunks "properly" 3 [mkWrapper "_" "_"]) 12 ""
                  titleSuffixFmt) <=
   List.length (buildChunks "properly" 3 [mkWrapper "_" "_"]))%nat /\
  (buildChunks "properly" 3 [mkWrapper "_" "_"] <> [] ->
   chunksAsStr uuid0 (buildChunks "properly" 3 [mkWrapper "_" "_"]) 12 ""
     titleSuffixFmt <> []) /\
  ("" = "" ->
   join (chunksAsStr uuid0 (buildChunks "properly" 3 [mkWrapper "_" "_"]) 12 ""
           titleSuffixFmt) =
   body (buildChunks "properly" 3 [mkWrapper "_" "_"])).
Proof.
  apply (X15_chunksAsStr_keeps_every_piece uuid0
           (buildChunks "properly" 3 [mkWrapper "_" "_"]) 12 "").
  - vm_compute. reflexivity.
  - apply indexFrom_None. vm_compute. reflexivity.
  - apply indexFrom_None. vm_compute. reflexivity.
Defined.

Lemma untitled_chunks_within_max (parse : string -> Node)
    (uuid text : string) (max : Z) (sep : string) (out : list string) :
  MarkdownSplit parse uuid text max sep = (out, true) ->
  let st := Walk (visitor max sep) (parse text) initState in
  baseTitle st = "" ->
  ~ occursIn ("<" ++ uuid ++ ">") (body (chunks st)) ->
  Forall (fun c => len c <= max) out.
Proof.
  intros Hout st Hbt Hbody. unfold MarkdownSplit in Hout.
  destruct (Z.leb_spec (len text) max) as [Hle | Hgt].
  { rewrite MarkdownSplitNode_fits_already in Hout by assumption.
    injection Hout as <-. constructor; [exact Hle | constructor]. }
  destruct (Z.leb_spec max (len sep)) as [Hsep | Hsep].
  { unfold MarkdownSplitNode in Hout.
    replace (len text <=? max) with false in Hout
      by (symmetry; apply Z.leb_gt; lia).
    rewrite (proj2 (Z.leb_le _ _) Hsep) in Hout. discriminate. }
  rewrite MarkdownSplitNode_walks in Hout by lia. cbv zeta in Hout. fold st in Hout.
  destruct (canSplit st); cbn [negb] in Hout; [|discriminate].
  injection Hout as <-.
  destruct (walk_pieces_fit_budget max sep (parse text)) as [Ht Hp].
  fold st in Ht, Hp. rewrite Hbt in *.
  destruct Ht as [[_ Htl] | [Hn _]]; [|congruence].
  unfold chunksAsStr. rewrite Sprintf_token.
  set (tid := "<" ++ uuid ++ ">") in *.
  destruct (chunksAsStr_loop_shape max "" titleSuffixFmt tid (chunks st))
    as (groups & Hs & Hc & _ & Hfit).
  rewrite Hs, length_mapFrom.
  apply Forall_forall. intros x Hx. apply in_map_iff in Hx.
  destruct Hx as (y & <- & Hy).
  destruct (In_nth _ _ "" Hy) as (i & Hi & Hnth).
  rewrite length_mapFrom in Hi.
  rewrite (nth_mapFrom _ _ _ _ _ [] Hi) in Hnth. subst y.
  pose proof (allFrom_nth _ _ _ i [] Hfit Hi) as Hg.
  assert (Hin : In (nth i groups []) groups) by now apply nth_In.
  rewrite titleOf_empty in *. cbn [append] in *.
  rewrite indexFrom_None_Replace1.
  - destruct Hg as [Hg | [c Hg]]; [exact Hg|].
    rewrite Hg, body_single. rewrite Forall_forall in Hp.
    assert (Hcin : In c (chunks st)).
    { rewrite <- Hc. apply (In_concat_group groups [c]); [congruence | now left]. }
    destruct (Hp c Hcin) as [_ Hle]. pose proof (len_nonneg sep). lia.
  - intros Ho. apply Hbody. rewrite <- Hc.
    eapply occursIn_trans; [exact Ho | now apply body_in_concat].
Qed.

(** X16. Without a base title the length bound holds whatever the number
    of chunks: when [MarkdownSplit] succeeds and the walk has captured no
    title, every chunk is at most [max] bytes long (the placeholder being
    fresh for the rendered pieces). *)
Theorem X16_untitled_chunks_within_max (parse : string -> Node)
    (uuid text : string) (max : Z) (sep : string) (out : list string) :
  MarkdownSplit parse uuid text max sep = (out, true) ->
  let st := Walk (visitor max sep) (parse text) initState in
  baseTitle st = "" ->
  ~ occursIn ("<" ++ uuid ++ ">") (body (chunks st)) ->
  Forall (fun c => len c <= max) out.
Proof. apply untitled_chunks_within_max. Qed.

Lemma X16_witness :
  Forall (fun c => len c <= 60)
    (fst (MarkdownSplit (fun _ => htmlDoc) uuid0 htmlText 60 "")).
Proof.
  apply (X16_untitled_chunks_within_max (fun _ => htmlDoc) uuid0 htmlText 60 ""
           (fst (MarkdownSplit (fun _ => htmlDoc) uuid0 htmlText 60 ""))).
  - vm_compute. reflexivity.
  - vm_compute. reflexivity.
  - apply indexFrom_None. vm_compute. reflexivity.
Defined.

(** ** A paragraph of plain text *)

Lemma body_plain (cs : list chunk) :
  Forall (fun p => wrappers p = []) cs -> body cs = join (map content cs).
Proof.
  intros H. unfold body. f_equal. apply map_ext_in. intros p Hp.
  rewrite Forall_forall in H. rewrite renderChunk_nest, (H p Hp). reflexivity.
Qed.

Lemma Walk_plain_paragraph (max : Z) (sep t : string) :
  max > len sep ->
  Walk (visitor max sep) (container Document [container Paragraph [leaf Text t]])
    initState =
  mkState (buildChunks t (max - (0 + 0 + len sep)) []) "" 0 true [].
Proof.
  intros Hsep. unfold Walk. cbn [walkEvents container leaf isContainer flat_map app].
  cbn [runVisitor]. unfold visitor at 1.
  cbn [node Typ NodeType_eqb Literal container].
  cbn [runVisitor]. unfold visitor at 1.
  cbn [node Typ NodeType_eqb Literal container].
  cbn [runVisitor]. unfold visitor at 1.
  cbn [node Typ NodeType_eqb Literal leaf parents parentLoop container nodeSwitch
       htmlWrappers initState app titleLen chunks baseTitle canSplit].
  change (wrappersLen []) with 0.
  replace (0 + 0 + len sep >=? max) with false
    by (symmetry; rewrite Z.geb_leb; apply Z.leb_gt; lia).
  reflexivity.
Qed.

(** X17. A text longer than [max] that is one paragraph of plain text is
    split with success, and the chunks, put together in order, are the text
    of the paragraph, and each is at most [max] bytes long (the placeholder
    being fresh for the text). *)
Theorem X17_plain_paragraph_round_trip (parse : string -> Node)
    (uuid text : string) (max : Z) (sep t : string) :
  parse text = container Document [container Paragraph [leaf Text t]] ->
  isUUIDText uuid = true ->
  ~ occursIn ("<" ++ uuid ++ ">") t ->
  len text > max -> max > len sep ->
  snd (MarkdownSplit parse uuid text max sep) = true /\
  join (fst (MarkdownSplit parse uuid text max sep)) = t /\
  Forall (fun c => len c <= max) (fst (MarkdownSplit parse uuid text max sep)).
Proof.
  intros Hp Hu Hfresh Hlen Hsep.
  pose proof (len_nonneg sep) as Hs.
  destruct (buildChunks_spec t (max - (0 + 0 + len sep)) []) as [Hj Ha]; [lia|].
  assert (Hplain : body (buildChunks t (max - (0 + 0 + len sep)) []) = t).
  { rewrite body_plain; [exact Hj|].
    eapply Forall_impl; [|exact Ha]. intros p [Hw _]. exact Hw. }
  assert (Hout : MarkdownSplit parse uuid text max sep =
                 (chunksAsStr uuid (buildChunks t (max - (0 + 0 + len sep)) [])
                    max "" titleSuffixFmt, true)).
  { unfold MarkdownSplit. rewrite MarkdownSplitNode_walks by assumption.
    rewrite Hp, Walk_plain_paragraph by assumption. reflexivity. }
  split; [now rewrite Hout|]. split.
  - rewrite Hout. cbn [fst].
    destruct (chunksAsStr_keeps_every_piece uuid
                (buildChunks t (max - (0 + 0 + len sep)) []) max "" Hu
                (token_not_in_empty uuid)) as (_ & _ & Hjoin).
    + now rewrite Hplain.
    + now rewrite Hjoin.
  - apply (untitled_chunks_within_max parse uuid text max sep).
    + rewrite Hout. reflexivity.
    + rewrite Hp, Walk_plain_paragraph by assumption. reflexivity.
    + rewrite Hp, Walk_plain_paragraph by assumption. cbn [chunks].
      now rewrite Hplain.
Qed.

Lemma X17_witness :
  snd (MarkdownSplit
         (fun _ => container Document [container Paragraph [leaf Text "Some basic comment"]])
         uuid0 "Some basic comment" 10 "") = true /\
  join (fst (MarkdownSplit
               (fun _ => container Document
                           [container Paragraph [leaf Text "Some basic comment"]])
               uuid0 "Some basic comment" 10 "")) = "Some basic comment" /\
  Forall (fun c => len c <= 10)
    (fst (MarkdownSplit
            (fun _ => container Document
                        [container Paragraph [leaf Text "Some basic comment"]])
            uuid0 "Some basic comment" 10 "")).
Proof.
  apply (X17_plain_paragraph_round_trip
           (fun _ => container Document
                       [container Paragraph [leaf Text "Some basic comment"]])
           uuid0 "Some basic comment" 10 "" "Some basic comment").
  - reflexivity.
  - vm_compute. reflexivity.
  - apply indexFrom_None. vm_compute. reflexivity.
  - vm_compute. reflexivity.
  - vm_compute. reflexivity.
Defined.

(** ** Greedy packing *)

Section Greedy.
Variables (max : Z) (bt sfmt tid : string).

Let T : Z -> string := titleOf bt sfmt tid.
Let F : Z -> list chunk -> string := fun k g => T k ++ body g.
Let step := chunksAsStr_step max bt sfmt tid.

Lemma chunksAsStr_step_cases (groups : list (list chunk)) (c : chunk) :
  exists groups',
    step (mapFrom F 1 groups, 1 + Z.of_nat (List.length groups)) c =
    (mapFrom F 1 groups', 1 + Z.of_nat (List.length groups')) /\
    ((exists gs g, groups = (gs ++ [g])%list /\ groups' = (gs ++ [g ++ [c]])%list) \/
     (groups' = (groups ++ [[c]])%list /\
      forall gs g, groups = (gs ++ [g])%list ->
                   max < len (F (1 + Z.of_nat (List.length gs)) g) +
                         len (renderChunk c))).
Proof.
  unfold step, chunksAsStr_step.
  destruct (last_or_nil groups) as [-> | (gs & g & ->)].
  - exists [[c]]. cbn [mapFrom List.length Z.of_nat app].
    cbn [andb Z.ltb Z.compare]. rewrite new_chunk_titleOf. split.
    + unfold F, T. now rewrite body_single.
    + right. split; [reflexivity|]. intros gs g E. destruct gs; discriminate.
  - rewrite mapFrom_app. cbn [mapFrom].
    set (k := 1 + Z.of_nat (List.length gs)).
    rewrite last_last, removelast_last, length_app, length_mapFrom.
    cbn [List.length].
    replace (0 <? Z.of_nat (List.length gs + 1)) with true
      by (symmetry; apply Z.ltb_lt; lia).
    cbn [andb].
    destruct (Z.leb_spec (len (F k g) + len (renderChunk c)) max) as [Hle | Hgt].
    + exists (gs ++ [g ++ [c]])%list. split.
      * rewrite mapFrom_app. cbn [mapFrom]. fold k. rewrite !length_app.
        cbn [List.length]. do 3 f_equal. unfold F.
        now rewrite body_snoc, append_assoc.
      * left. now exists gs, g.
    + exists ((gs ++ [g]) ++ [[c]])%list. split.
      * rewrite new_chunk_titleOf, !mapFrom_app. cbn [mapFrom]. fold k.
        rewrite !length_app. cbn [List.length]. f_equal; [|lia].
        do 3 f_equal. unfold F, T. now rewrite body_single.
      * right. split; [reflexivity|]. intros gs' g' E.
        apply app_inj_tail in E. destruct E as [-> ->]. exact Hgt.
Qed.

Lemma greedy_merge (gs : list (list chunk)) (g : list chunk) (c : chunk) :
  g <> [] -> greedy max F (gs ++ [g])%list ->
  greedy max F (gs ++ [g ++ [c]])%list.
Proof.
  intros Hg H i g1 g2 H1 H2.
  assert (Hi : (S i < List.length (gs ++ [g ++ [c]])%list)%nat)
    by (apply nth_error_Some; congruence).
  rewrite length_app in Hi. cbn [List.length] in Hi.
  rewrite nth_error_app1 in H1 by lia.
  destruct (Nat.eq_dec (S i) (List.length gs)) as [E | E].
  - rewrite nth_error_app2, E, Nat.sub_diag in H2 by lia.
    injection H2 as <-.
    replace (hd (mkChunk "" []) (g ++ [c])%list) with (hd (mkChunk "" []) g)
      by (destruct g; [congruence | reflexivity]).
    apply (H i g1 g).
    + rewrite nth_error_app1 by lia. exact H1.
    + rewrite nth_error_app2, E, Nat.sub_diag by lia. reflexivity.
  - rewrite nth_error_app1 in H2 by lia.
    apply (H i g1 g2); rewrite nth_error_app1 by lia; assumption.
Qed.

Lemma greedy_new (groups : list (list chunk)) (c : chunk) :
  greedy max F groups ->
  (forall gs g, groups = (gs ++ [g])%list ->
                max < len (F (1 + Z.of_nat (List.length gs)) g) +
                      len (renderChunk c)) ->
  greedy max F (groups ++ [[c]])%list.
Proof.
  intros H Hnew i g1 g2 H1 H2.
  assert (Hi : (S i < List.length (groups ++ [[c]])%list)%nat)
    by (apply nth_error_Some; congruence).
  rewrite length_app in Hi. cbn [List.length] in Hi.
  rewrite nth_error_app1 in H1 by lia.
  destruct (Nat.eq_dec (S i) (List.length groups)) as [E | E].
  - rewrite nth_error_app2, E, Nat.sub_diag in H2 by lia.
    injection H2 as <-. cbn [hd].
    destruct (last_or_nil groups) as [-> | (gs & g & ->)]; [discriminate|].
    rewrite length_app in E. cbn [List.length] in E.
    rewrite nth_error_app2 in H1 by lia.
    replace (i - List.length gs)%nat with 0%nat in H1 by lia.
    injection H1 as <-.
    replace (Z.of_nat i) with (Z.of_nat (List.length gs)) by lia.
    now apply (Hnew gs g).
  - rewrite nth_error_app1 in H2 by lia. now apply (H i g1 g2).
Qed.

Lemma chunksAsStr_fold_greedy (cs : list chunk) (groups : list (list chunk)) :
  Forall (fun g => g <> []) groups ->
  greedy max F groups ->
  exists groups',
    fold_left step cs (mapFrom F 1 groups, 1 + Z.of_nat (List.length groups)) =
    (mapFrom F 1 groups', 1 + Z.of_nat (List.length groups')) /\
    List.concat groups' = (List.concat groups ++ cs)%list /\
    Forall (fun g => g <> []) groups' /\
    greedy max F groups'.
Proof.
  revert groups. induction cs as [|c cs IH]; intros groups Hne Hgr.
  - exists groups. rewrite app_nil_r. repeat split; assumption.
  - destruct (chunksAsStr_step_cases groups c) as (g1 & Hs & Hcase).
    assert (H1 : List.concat g1 = (List.concat groups ++ [c])%list /\
                 Forall (fun g => g <> []) g1 /\ greedy max F g1).
    { destruct Hcase as [(gs & g & -> & ->) | [-> Hnew]].
      - apply Forall_app in Hne. destruct Hne as [Hne1 Hne2].
        apply Forall_inv in Hne2. split; [|split].
        + rewrite !concat_app. cbn [List.concat].
          now rewrite !app_nil_r, app_assoc.
        + apply Forall_app. split; [exact Hne1|].
          constructor; [destruct g; discriminate | constructor].
        + now apply greedy_merge.
      - split; [|split].
        + rewrite concat_app. cbn [List.concat]. now rewrite app_nil_r.
        + apply Forall_app. split; [exact Hne|].
          constructor; [discriminate | constructor].
        + now apply greedy_new. }
    destruct H1 as (Hc1 & Hne1 & Hgr1).
    destruct (IH g1 Hne1 Hgr1) as (g2 & Hs2 & Hc2 & Hne2 & Hgr2).
    exists g2. cbn [fold_left]. rewrite Hs, Hs2.
    split; [reflexivity|]. split; [|split; assumption].
    rewrite Hc2, Hc1, <- app_assoc. reflexivity.
Qed.

(** X18. The loop of [chunksAsStr] packs greedily: the pieces fall, in
    order, into non-empty groups, one per chunk, chunk [k] being its title
    followed by its rendered pieces, and a chunk never fits [max] together
    with the first piece of the chunk after it. *)
Theorem X18_chunksAsStr_packs_greedily (cs : list chunk) :
  exists groups : list (list chunk),
    fst (chunksAsStr_loop cs max bt sfmt tid) =
    mapFrom (fun k g => titleOf bt sfmt tid k ++ body g) 1 groups /\
    List.concat groups = cs /\
    Forall (fun g => g <> []) groups /\
    greedy max (fun k g => titleOf bt sfmt tid k ++ body g) groups.
Proof.
  assert (H0 : greedy max F []).
  { intros i g1 g2 H1 _. destruct i; discriminate. }
  destruct (chunksAsStr_fold_greedy cs [] (Forall_nil _) H0)
    as (groups & Hs & Hc & Hne & Hgr).
  exists groups. unfold chunksAsStr_loop.
  change (@nil string, 1) with
    (mapFrom F 1 [], 1 + Z.of_nat (@List.length (list chunk) [])).
  fold step. rewrite Hs. repeat split; assumption.
Qed.
End Greedy.

(** ** The separator on the markdown-aware path *)

Lemma visitor_sep_len (max : Z) (sep sep' : string) (st : walkState) (ev : visit) :
  len sep = len sep' -> visitor max sep st ev = visitor max sep' st ev.
Proof. intros H. unfold visitor. rewrite H. reflexivity. Qed.

Lemma runVisitor_ext {S : Type} (v1 v2 : S -> visit -> S * WalkStatus) :
  (forall st ev, v1 st ev = v2 st ev) ->
  forall evs st, runVisitor v1 evs st = runVisitor v2 evs st.
Proof.
  intros H. induction evs as [|ev evs IH]; intros st; [reflexivity|].
  cbn [runVisitor]. rewrite H. destruct (v2 st ev) as [st' [|]]; [apply IH | reflexivity].
Qed.

(** X19. On the markdown-aware path the separator is never written: when
    [MarkdownSplit] succeeds, a separator of the same length gives the same
    chunks.  Only its length is taken off the budget of every piece. *)
Theorem X19_success_ignores_separator_text (parse : string -> Node)
    (uuid text : string) (max : Z) (sep sep' : string) :
  len sep = len sep' ->
  snd (MarkdownSplit parse uuid text max sep) = true ->
  MarkdownSplit parse uuid text max sep' = MarkdownSplit parse uuid text max sep.
Proof.
  intros H. unfold MarkdownSplit, MarkdownSplitNode, Walk.
  rewrite (runVisitor_ext (visitor max sep') (visitor max sep))
    by (intros st ev; apply visitor_sep_len; congruence).
  rewrite H.
  destruct (len text <=? max); [reflexivity|].
  destruct (max <=? len sep'); [reflexivity|].
  destruct (canSplit _); cbn [negb snd]; [reflexivity | discriminate].
Qed.

Lemma X19_witness :
  MarkdownSplit (fun _ => titledDoc) uuid0 titledText 55 "--" =
  MarkdownSplit (fun _ => titledDoc) uuid0 titledText 55 "<>".
Proof.
  apply (X19_success_ignores_separator_text (fun _ => titledDoc) uuid0 titledText
           55 "<>" "--").
  - reflexivity.
  - vm_compute. reflexivity.
Defined.

(** ** Who touches the stack of open tags *)

(** X20. Only a raw-HTML-span node changes the stack of open HTML tags:
    the visitor called on a node of any other type leaves it as it was. *)
Theorem X20_only_html_spans_change_stack (max : Z) (sep : string)
    (st : walkState) (ev : visit) :
  Typ (node ev) <> HTMLSpan ->
  htmlWrappers (fst (visitor max sep st ev)) = htmlWrappers st.
Proof.
  intros Ht. unfold visitor.
  destruct (NodeType_eqb (Typ (node ev)) List); [reflexivity|].
  destruct (Literal (node ev)) as [contents|]; [|reflexivity].
  destruct (parentLoop st contents (parents ev) []) as [st1|ws] eqn:E.
  - cbn [fst]. apply parentLoop_inl in E.
    destruct E as (_ & _ & _ & _ & H & _). exact H.
  - assert (Hs : snd (nodeSwitch (Typ (node ev)) contents ws (htmlWrappers st)) =
                 htmlWrappers st).
    { destruct (Typ (node ev)); try reflexivity; try congruence.
      cbn [nodeSwitch]. destruct (negb (strings.Index contents LF =? -1));
        reflexivity. }
    destruct (nodeSwitch _ _ _ _) as [[c ws'] html]. cbn [snd] in Hs. subst html.
    destruct (_ >=? max); reflexivity.
Qed.

Lemma X20_witness :
  htmlWrappers
    (fst (visitor 40 "" (mkState [] "" 0 true [mkWrapper "<b>" "</b>"])
            (mkVisit (leaf Text "</b>") true [container Paragraph []]))) =
  htmlWrappers (mkState [] "" 0 true [mkWrapper "<b>" "</b>"]).
Proof.
  apply (X20_only_html_spans_change_stack 40 ""
           (mkState [] "" 0 true [mkWrapper "<b>" "</b>"])
           (mkVisit (leaf Text "</b>") true [container Paragraph []])).
  vm_compute. discriminate.
Defined.

(** ** A code span of one line *)

Lemma TrimRight_no_LF (s : string) :
  strings.indexFrom s LF = None -> strings.TrimRight s LF = s.
Proof.
  induction s as [|a s IH]; [reflexivity|].
  cbn [strings.indexFrom]. unfold LF at 1. cbn [prefix].
  destruct (ascii_dec "010"%char a) as [<- | Hn].
  { rewrite prefix_nil. discriminate. }
  intros H. destruct (strings.indexFrom s LF) eqn:E; [discriminate|].
  cbn [strings.TrimRight]. rewrite (IH eq_refl).
  destruct s; [|reflexivity].
  unfold LF. cbn [strings.contains].
  destruct (Ascii.eqb_spec a "010"%char); [congruence | reflexivity].
Qed.

(** X21. A code span whose literal has no line feed keeps its whole
    literal as content and gets the wrapper of a bare fence; cut with a
    positive budget, its pieces make up the literal. *)
Theorem X21_one_line_code_span_kept (contents : string) (ws html : list wrapper)
    (chunkLen : Z) :
  strings.Index contents LF = -1 ->
  1 <= chunkLen ->
  let fence := mkWrapper ("```" ++ LF) (LF ++ "```") in
  nodeSwitch Code contents ws html = (contents, (ws ++ [fence])%list, html) /\
  join (map content
          (buildChunks (fst (fst (nodeSwitch Code contents ws html))) chunkLen
             (ws ++ [fence])%list)) = contents.
Proof.
  intros Hi Hc fence.
  assert (Hn : strings.indexFrom contents LF = None).
  { unfold strings.Index in Hi.
    destruct (strings.indexFrom contents LF); [lia | reflexivity]. }
  assert (Hs : nodeSwitch Code contents ws html =
               (contents, (ws ++ [fence])%list, html)).
  { cbn [nodeSwitch]. rewrite Hi, Z.eqb_refl. cbn [negb].
    now rewrite (TrimRight_no_LF contents Hn). }
  split; [exact Hs|]. rewrite Hs. cbn [fst].
  now apply buildChunks_spec.
Qed.

Lemma X21_witness :
  nodeSwitch Code "x := 1" [] [] =
  ("x := 1", ([] ++ [mkWrapper ("```" ++ LF) (LF ++ "```")])%list, []) /\
  join (map content
          (buildChunks (fst (fst (nodeSwitch Code "x := 1" [] []))) 4
             ([] ++ [mkWrapper ("```" ++ LF) (LF ++ "```")])%list)) = "x := 1".
Proof.
  apply (X21_one_line_code_span_kept "x := 1" [] [] 4).
  - vm_compute. reflexivity.
  - vm_compute. discriminate.
Defined.
